(** * DSR calculator: the amortization schedule and the DSR ratio of
    [calculateDSR] (src/App.tsx), embedded and verified.

    Numbers.  The engine computes on JavaScript numbers.  They are modelled
    here as exact rationals extended with the three non-finite IEEE values
    (+Infinity, -Infinity, NaN): arithmetic is exact (no rounding, no
    overflow, no signed zero), and a division by zero produces what IEEE
    produces.  The user-supplied amounts and the rate are finite rationals;
    the loan term and the grace period are whole numbers of years, so the
    month counters and the exponent of [Math.pow] are integers.

    What the exact model proves is the arithmetic the code writes down, not
    the rounded result a run prints.  Where a statement is about the rounded
    result, the module [Double] runs the first loop on IEEE 754 binary64
    numbers. *)

From Stdlib Require Import ZArith QArith Qreduction Qpower List Bool Lia Lqa.
From Stdlib Require Import Setoid Morphisms.
From Stdlib Require Ascii String.
From Stdlib Require PrimFloat.
Import ListNotations.

Local Open Scope Z_scope.

(** ** Numbers *)

Module Num.

Inductive num : Type :=
| Fin (q : Q)
| PInf
| NInf
| NaN.

Definition Qltb (a b : Q) : bool :=
  match Qcompare a b with Lt => true | _ => false end.

Definition Qsign (a : Q) : comparison := Qcompare a 0.

Definition ofZ (z : Z) : num := Fin (inject_Z z).

Definition add (x y : num) : num :=
  match x, y with
  | NaN, _ | _, NaN => NaN
  | Fin a, Fin b => Fin (Qred (a + b))
  | PInf, NInf | NInf, PInf => NaN
  | PInf, _ | _, PInf => PInf
  | NInf, _ | _, NInf => NInf
  end.

Definition sub (x y : num) : num :=
  match x, y with
  | NaN, _ | _, NaN => NaN
  | Fin a, Fin b => Fin (Qred (a - b))
  | PInf, PInf | NInf, NInf => NaN
  | PInf, _ | _, NInf => PInf
  | NInf, _ | _, PInf => NInf
  end.

(** An infinity scaled by a finite factor: the sign follows the factor, and
    infinity times zero is NaN. *)
Definition scale_inf (pos : bool) (a : Q) : num :=
  match Qsign a with
  | Eq => NaN
  | Gt => if pos then PInf else NInf
  | Lt => if pos then NInf else PInf
  end.

Definition mul (x y : num) : num :=
  match x, y with
  | NaN, _ | _, NaN => NaN
  | Fin a, Fin b => Fin (Qred (a * b))
  | PInf, Fin a | Fin a, PInf => scale_inf true a
  | NInf, Fin a | Fin a, NInf => scale_inf false a
  | PInf, PInf | NInf, NInf => PInf
  | PInf, NInf | NInf, PInf => NInf
  end.

(** Division.  A zero divisor is the positive zero: every zero divisor of the
    engine is an integer input or a difference [x - x]. *)
Definition div (x y : num) : num :=
  match x, y with
  | NaN, _ | _, NaN => NaN
  | Fin a, Fin b =>
      match Qsign b with
      | Eq => match Qsign a with Eq => NaN | Gt => PInf | Lt => NInf end
      | _ => Fin (Qred (a / b))
      end
  | Fin _, (PInf | NInf) => Fin 0
  | PInf, Fin b => match Qsign b with Lt => NInf | _ => PInf end
  | NInf, Fin b => match Qsign b with Lt => PInf | _ => NInf end
  | (PInf | NInf), (PInf | NInf) => NaN
  end.

(** [x < y]; false as soon as one side is NaN. *)
Definition ltb (x y : num) : bool :=
  match x, y with
  | NaN, _ | _, NaN => false
  | Fin a, Fin b => Qltb a b
  | NInf, (Fin _ | PInf) => true
  | Fin _, PInf => true
  | _, _ => false
  end.

(** [x <= y]; false as soon as one side is NaN. *)
Definition leb (x y : num) : bool :=
  match x, y with
  | NaN, _ | _, NaN => false
  | Fin a, Fin b => negb (Qltb b a)
  | NInf, _ => true
  | _, PInf => true
  | _, _ => false
  end.

(** [x === y]: NaN equals nothing, itself included. *)
Definition eqb (x y : num) : bool :=
  match x, y with
  | Fin a, Fin b => Qeq_bool a b
  | PInf, PInf | NInf, NInf => true
  | _, _ => false
  end.

(** [Math.pow x n] for an integer exponent. *)
Definition pow (x : num) (n : Z) : num :=
  if n =? 0 then Fin 1
  else match x with
       | NaN => NaN
       | Fin a =>
           if (n <? 0) && Qeq_bool a 0 then PInf else Fin (Qred (a ^ n))
       | PInf => if 0 <? n then PInf else Fin 0
       | NInf => if 0 <? n then (if Z.odd n then NInf else PInf) else Fin 0
       end.

Definition isFinite (x : num) : bool :=
  match x with Fin _ => true | _ => false end.

End Num.

Import Num.

Declare Scope num_scope.
Delimit Scope num_scope with num.
Bind Scope num_scope with num.
Infix "+" := Num.add : num_scope.
Infix "-" := Num.sub : num_scope.
Infix "*" := Num.mul : num_scope.
Infix "/" := Num.div : num_scope.
Infix "<?" := Num.ltb : num_scope.
Infix "<=?" := Num.leb : num_scope.
Infix "===" := Num.eqb (at level 70, no associativity) : num_scope.

(** ** The data model (the [types] module of the source) *)

Inductive RepaymentMethod : Type :=
| PrincipalInterestEqual
| PrincipalEqual.

Inductive CollateralType : Type :=
| Housing
| Other.

Record LoanInputs : Type := mkLoanInputs {
  annualIncome : Q;
  loanAmount : Q;
  interestRate : Q;
  loanTermYear : Z;
  gracePeriodYear : Z;
  repaymentMethod : RepaymentMethod;
  collateralType : CollateralType;
  applyStressDsr : bool
}.

Record MonthlyPayment : Type := mkMonthlyPayment {
  month : Z;
  payment : num;
  principal : num;
  interest : num;
  balance : num
}.

Record CalculationResult : Type := mkCalculationResult {
  dsrRatio : num;
  monthlyPayments : list MonthlyPayment;
  totalInterest : num;
  totalPayment : num;
  avgMonthlyPayment : num;
  stressDsrRateUsed : num
}.

(** ** The engine (src/App.tsx, [calculateDSR]) *)

Section Engine.

Variable inputs : LoanInputs.

Definition totalMonths : Z := loanTermYear inputs * 12.
Definition graceMonths : Z := gracePeriodYear inputs * 12.

Definition monthlyRate : num :=
  (Fin (interestRate inputs) / Fin 100 / Fin 12)%num.

Definition stressRate : num := if applyStressDsr inputs then Fin 3 else Fin 0.
Definition stressInterestRate : num :=
  (Fin (interestRate inputs) + stressRate)%num.
Definition stressMonthlyRate : num :=
  (stressInterestRate / Fin 100 / Fin 12)%num.

(** The annuity payment on the original loan amount over [n] months at
    monthly rate [r]; the division is not guarded. *)
Definition annuity (r : num) (n : Z) : num :=
  ((Fin (loanAmount inputs) * r * Num.pow (Fin 1 + r) n)
   / (Num.pow (Fin 1 + r) n - Fin 1))%num.

(** The variables the first loop updates. *)
Record ActualLoop : Type := mkActualLoop {
  remainingBalance : num;
  accInterest : num;
  accPayment : num;
  accPayments : list MonthlyPayment
}.

(** The months [1 .. n] a [for (m = 1; m <= n; m++)] loop visits. *)
Definition monthsUpTo (k : nat) : list Z := map Z.of_nat (seq 1 k).

(** The entry one iteration of the first loop pushes (lines 53-88), from the
    loop variables at the start of month [m]; its [balance] is the new
    [remainingBalance].  The local [remainingMonths] of the source is never
    read and is left out. *)
Definition monthEntry (s : ActualLoop) (m : Z) : MonthlyPayment :=
  let interestPayment := (remainingBalance s * monthlyRate)%num in
  let '(principalPayment, monthlyTotal) :=
    if m <=? graceMonths then (Fin 0, interestPayment)
    else
      let effectiveRemainingMonths := totalMonths - graceMonths in
      match repaymentMethod inputs with
      | PrincipalEqual =>
          let principalPayment :=
            (Fin (loanAmount inputs) / ofZ effectiveRemainingMonths)%num in
          (principalPayment, (principalPayment + interestPayment)%num)
      | PrincipalInterestEqual =>
          let n := effectiveRemainingMonths in
          let monthlyTotal := annuity monthlyRate n in
          ((monthlyTotal - interestPayment)%num, monthlyTotal)
      end in
  let remainingBalance' := (remainingBalance s - principalPayment)%num in
  let remainingBalance' :=
    if (remainingBalance' <? Fin 0)%num then Fin 0 else remainingBalance' in
  {| month := m; payment := monthlyTotal; principal := principalPayment;
     interest := interestPayment; balance := remainingBalance' |}.

(** One iteration of the first loop (lines 52-92). *)
Definition actualBody (s : ActualLoop) (m : Z) : ActualLoop :=
  let e := monthEntry s m in
  {| remainingBalance := balance e;
     accInterest := (accInterest s + interest e)%num;
     accPayment := (accPayment s + payment e)%num;
     accPayments := accPayments s ++ [e] |}.

Definition actualInit : ActualLoop :=
  {| remainingBalance := Fin (loanAmount inputs);
     accInterest := Fin 0; accPayment := Fin 0; accPayments := [] |}.

(** The first loop after [k] iterations, and run to its end. *)
Definition actualAfter (k : nat) : ActualLoop :=
  fold_left actualBody (monthsUpTo k) actualInit.

Definition actualLoop : ActualLoop := actualAfter (Z.to_nat totalMonths).

(** A. Principal burden (lines 97-115). *)
Definition annualPrincipalBurden : num :=
  match collateralType inputs with
  | Housing =>
      let effectiveTermYear := loanTermYear inputs - gracePeriodYear inputs in
      if 0 <? effectiveTermYear
      then (Fin (loanAmount inputs) / ofZ effectiveTermYear)%num
      else Fin (loanAmount inputs)
  | Other => (Fin (loanAmount inputs) / ofZ (loanTermYear inputs))%num
  end.

(** The variables the second loop updates. *)
Record StressLoop : Type := mkStressLoop {
  stressBalance : num;
  accStressInterest : num
}.

(** One iteration of the second loop (lines 125-143). *)
Definition stressBody (s : StressLoop) (m : Z) : StressLoop :=
  let stressInt := (stressBalance s * stressMonthlyRate)%num in
  let stressPrincipal :=
    if graceMonths <? m then
      let effectiveRemainingMonths := totalMonths - graceMonths in
      match repaymentMethod inputs with
      | PrincipalEqual =>
          (Fin (loanAmount inputs) / ofZ effectiveRemainingMonths)%num
      | PrincipalInterestEqual =>
          let n := effectiveRemainingMonths in
          let pmt := annuity stressMonthlyRate n in
          (pmt - stressInt)%num
      end
    else Fin 0 in
  let stressBalance' := (stressBalance s - stressPrincipal)%num in
  {| stressBalance :=
       if (stressBalance' <? Fin 0)%num then Fin 0 else stressBalance';
     accStressInterest := (accStressInterest s + stressInt)%num |}.

Definition stressInit : StressLoop :=
  {| stressBalance := Fin (loanAmount inputs); accStressInterest := Fin 0 |}.

Definition stressAfter (k : nat) : StressLoop :=
  fold_left stressBody (monthsUpTo k) stressInit.

Definition totalStressInterest : num :=
  accStressInterest (stressAfter (Z.to_nat totalMonths)).

(** B. Interest burden (line 145). *)
Definition annualInterestBurden : num :=
  (totalStressInterest / ofZ (loanTermYear inputs))%num.

Definition annualRepaymentForDsr : num :=
  (annualPrincipalBurden + annualInterestBurden)%num.

Definition calculateDSR : CalculationResult :=
  let s := actualLoop in
  {| dsrRatio :=
       if Qltb 0 (annualIncome inputs)
       then (annualRepaymentForDsr / Fin (annualIncome inputs) * Fin 100)%num
       else Fin 0;
     monthlyPayments := accPayments s;
     totalInterest := accInterest s;
     totalPayment := accPayment s;
     avgMonthlyPayment := (accPayment s / ofZ totalMonths)%num;
     stressDsrRateUsed := stressInterestRate |}.

End Engine.

(** Sums over the schedule, as a caller would fold them. *)
Definition sumOf (f : MonthlyPayment -> num) (l : list MonthlyPayment) : num :=
  fold_left (fun acc e => (acc + f e)%num) l (Fin 0).

(** The default form values of the application (scenario A of the spec),
    parameterised by what the other scenarios change. *)
Definition scenario (rate : Q) (term grace : Z) (method : RepaymentMethod)
    (collateral : CollateralType) (stress : bool) : LoanInputs :=
  {| annualIncome := 50000000; loanAmount := 300000000; interestRate := rate;
     loanTermYear := term; gracePeriodYear := grace; repaymentMethod := method;
     collateralType := collateral; applyStressDsr := stress |}.

Definition scenarioA : LoanInputs :=
  scenario (9 # 2) 30 0 PrincipalInterestEqual Housing false.
Definition scenarioD : LoanInputs :=
  scenario (9 # 2) 30 0 PrincipalInterestEqual Housing true.

(** The form after its rate field is cleared: [InputField] reports 0. *)
Definition rateCleared : LoanInputs :=
  scenario 0 30 0 PrincipalInterestEqual Housing false.

Local Open Scope Q_scope.

(** ** Auxiliary definitions *)

(** [val x q]: the number [x] is finite and its value is the rational [q]. *)
Definition val (x : num) (q : Q) : Prop :=
  match x with Fin p => p == q | _ => False end.

(** [notneg x]: the test [x < 0] fails (so a NaN is not negative). *)
Definition notneg (x : num) : Prop := (x <? Fin 0)%num = false.

(** The monthly rate as a rational. *)
Definition rateQ (inp : LoanInputs) : Q := interestRate inp / 100 / 12.

(** The annuity in closed form: for a monthly rate [q] and [n] amortizing
    months, the growth factor, the payment on the principal [P] and the
    balance left after [j] payments. *)
Definition growth (q : Q) (n : Z) : Q := (1 + q) ^ n.
Definition annuityQ (P q : Q) (n : Z) : Q :=
  P * q * growth q n / (growth q n - 1).
Definition balanceQ (P q : Q) (n j : Z) : Q :=
  P * (growth q n - (1 + q) ^ j) / (growth q n - 1).

(** The present value, at the monthly rate [q], of [k] monthly payments
    of 1. *)
Fixpoint discountSum (q : Q) (k : nat) : Q :=
  match k with
  | O => 0
  | S k' => discountSum q k' + / (1 + q) ^ Z.of_nat (S k')
  end.

(** The add-on of the stress pass, in percentage points. *)
Definition stressAddOn (inp : LoanInputs) : Q :=
  if applyStressDsr inp then 3 else 0.

(** The same loan at the rate the stress pass uses. *)
Definition stressedInputs (inp : LoanInputs) : LoanInputs :=
  {| annualIncome := annualIncome inp; loanAmount := loanAmount inp;
     interestRate := Qred (interestRate inp + stressAddOn inp);
     loanTermYear := loanTermYear inp; gracePeriodYear := gracePeriodYear inp;
     repaymentMethod := repaymentMethod inp;
     collateralType := collateralType inp;
     applyStressDsr := applyStressDsr inp |}.

(** The ratio of a housing loan repaid by equal installments, in closed
    form. *)
Definition installmentHousingRatioQ (inp : LoanInputs) : Q :=
  let inp' := stressedInputs inp in
  let n := (totalMonths inp - graceMonths inp)%Z in
  (loanAmount inp / inject_Z (loanTermYear inp - gracePeriodYear inp)
   + (inject_Z (graceMonths inp) * (loanAmount inp * rateQ inp')
      + inject_Z n * annuityQ (loanAmount inp) (rateQ inp') n
      - loanAmount inp) / inject_Z (loanTermYear inp))
  / annualIncome inp * 100.

(** The same loan with the stress flag set to [b]. *)
Definition withStress (b : bool) (inp : LoanInputs) : LoanInputs :=
  {| annualIncome := annualIncome inp; loanAmount := loanAmount inp;
     interestRate := interestRate inp; loanTermYear := loanTermYear inp;
     gracePeriodYear := gracePeriodYear inp;
     repaymentMethod := repaymentMethod inp;
     collateralType := collateralType inp; applyStressDsr := b |}.

(** A loan term below zero is accepted and gives a negative ratio. *)
Definition negativeTerm : LoanInputs :=
  {| annualIncome := 100; loanAmount := 100; interestRate := 5;
     loanTermYear := -1; gracePeriodYear := 0;
     repaymentMethod := PrincipalInterestEqual; collateralType := Other;
     applyStressDsr := false |}.

(** A negative loan amount is floored to zero in the first month. *)
Definition negativeLoan : LoanInputs :=
  {| annualIncome := 100; loanAmount := -100; interestRate := 5;
     loanTermYear := 1; gracePeriodYear := 1;
     repaymentMethod := PrincipalInterestEqual; collateralType := Housing;
     applyStressDsr := false |}.

(** The form with both the rate and the income fields cleared. *)
Definition rateClearedNoIncome : LoanInputs :=
  {| annualIncome := 0; loanAmount := 300000000; interestRate := 0;
     loanTermYear := 30; gracePeriodYear := 0;
     repaymentMethod := PrincipalInterestEqual; collateralType := Housing;
     applyStressDsr := false |}.

(** ** The result panel (src/components/Results.tsx) *)

(** The three labels of the ratio card: the stable, caution and danger
    texts of lines 28-40. *)
Inductive DsrStatus : Type :=
| Stable
| Caution
| Danger.

(** DSR status logic (lines 28-40): the default is the stable label. *)
Definition dsrStatus (result : CalculationResult) : DsrStatus :=
  if (Fin 40 <? dsrRatio result)%num && (dsrRatio result <=? Fin 70)%num
  then Caution
  else if (Fin 70 <? dsrRatio result)%num then Danger
  else Stable.

(** The icon of the ratio card (line 140): the check mark, or else the
    alert. *)
Definition showsCheckIcon (result : CalculationResult) : bool :=
  (dsrRatio result <=? Fin 40)%num.

(** [Array.prototype.filter] with the index its callback receives. *)
Fixpoint filterIndexed {A : Type} (keep : A -> nat -> bool) (l : list A)
    (index : nat) : list A :=
  match l with
  | [] => []
  | x :: rest =>
      if keep x index then x :: filterIndexed keep rest (S index)
      else filterIndexed keep rest (S index)
  end.

Record ChartPoint : Type := mkChartPoint {
  year : Z;
  chartPrincipal : num;
  chartInterest : num
}.

(** The data of the yearly chart (lines 113-117): every twelfth entry and
    the last one. *)
Definition chartData (result : CalculationResult) : list ChartPoint :=
  map (fun p => {| year := (month p / 12 + 1)%Z;
                   chartPrincipal := principal p;
                   chartInterest := interest p |})
      (filterIndexed
         (fun _ index =>
            (index mod 12 =? 0)%nat
            || (Z.of_nat index
                =? Z.of_nat (length (monthlyPayments result)) - 1)%Z)
         (monthlyPayments result) 0).

(** ** The form (src/App.tsx) *)

(** The warning under the collateral selector (lines 270-274). *)
Definition showsGraceWarning (inputs : LoanInputs) : bool :=
  match collateralType inputs with
  | Housing => (0 <? gracePeriodYear inputs)%Z
  | Other => false
  end.

(** [updateInput] on the grace period. *)
Definition withGrace (grace : Z) (inp : LoanInputs) : LoanInputs :=
  {| annualIncome := annualIncome inp; loanAmount := loanAmount inp;
     interestRate := interestRate inp; loanTermYear := loanTermYear inp;
     gracePeriodYear := grace;
     repaymentMethod := repaymentMethod inp;
     collateralType := collateralType inp;
     applyStressDsr := applyStressDsr inp |}.

(** ** The input field (src/components/InputField.tsx) *)

(** [isNaN] of JavaScript. *)
Definition isNaN (x : num) : bool :=
  match x with NaN => true | _ => false end.

Definition comma : Ascii.ascii := Ascii.ascii_of_nat 44.

(** [text.replace(/,/g, '')]. *)
Fixpoint removeCommas (text : String.string) : String.string :=
  match text with
  | String.EmptyString => String.EmptyString
  | String.String c rest =>
      if Ascii.eqb c comma then removeCommas rest
      else String.String c (removeCommas rest)
  end.

Section InputField.

(** The built-in conversion the field relies on is left abstract. *)
Variable parseFloat : String.string -> num.

(** [handleChange] (lines 20-33): the value passed to [onChange], or [None]
    when [onChange] is not called. *)
Definition handleChange (text : String.string) : option num :=
  let rawValue := removeCommas text in
  match rawValue with
  | String.EmptyString => Some (Fin 0)
  | _ =>
      let numberValue := parseFloat rawValue in
      if negb (isNaN numberValue) then Some numberValue else None
  end.

End InputField.

(** ** The first loop on doubles *)

(** The first loop of [calculateDSR] (lines 35-92) once more, on the numbers
    the engine runs on: IEEE 754 binary64, every operation rounded to
    nearest.  The loan term and the grace period are whole years, as
    above. *)

Module Double.

Import PrimFloat.
Local Open Scope float_scope.

(** A whole number as a double; exact below [2^53]. *)
Fixpoint ofPositive (p : positive) : float :=
  match p with
  | xH => 1
  | xO q => 2 * ofPositive q
  | xI q => 2 * ofPositive q + 1
  end.

Definition ofZ (z : Z) : float :=
  match z with
  | Z0 => 0
  | Zpos p => ofPositive p
  | Zneg p => - ofPositive p
  end.

(** [Math.pow x n] for an integer exponent, by repeated squaring.  The
    built-in is only required to approximate the power; this is one such
    approximation. *)
Definition pow (x : float) (n : Z) : float :=
  match n with
  | Z0 => 1
  | Zpos p => Pos.iter_op mul p x
  | Zneg p => 1 / Pos.iter_op mul p x
  end.

Record LoanInputs : Type := mkLoanInputs {
  annualIncome : float;
  loanAmount : float;
  interestRate : float;
  loanTermYear : Z;
  gracePeriodYear : Z;
  repaymentMethod : RepaymentMethod;
  collateralType : CollateralType;
  applyStressDsr : bool
}.

Record MonthlyPayment : Type := mkMonthlyPayment {
  month : Z;
  payment : float;
  principal : float;
  interest : float;
  balance : float
}.

Section Engine.

Variable inputs : LoanInputs.

Definition totalMonths : Z := (loanTermYear inputs * 12)%Z.
Definition graceMonths : Z := (gracePeriodYear inputs * 12)%Z.

Definition monthlyRate : float := interestRate inputs / 100 / 12.

(** The annuity payment (line 74), operation by operation. *)
Definition annuity (r : float) (n : Z) : float :=
  (loanAmount inputs * r * pow (1 + r) n) / (pow (1 + r) n - 1).

Record ActualLoop : Type := mkActualLoop {
  remainingBalance : float;
  accInterest : float;
  accPayment : float;
  accPayments : list MonthlyPayment
}.

(** The entry one iteration pushes (lines 53-88). *)
Definition monthEntry (s : ActualLoop) (m : Z) : MonthlyPayment :=
  let interestPayment := remainingBalance s * monthlyRate in
  let '(principalPayment, monthlyTotal) :=
    if (m <=? graceMonths)%Z then (0, interestPayment)
    else
      let effectiveRemainingMonths := (totalMonths - graceMonths)%Z in
      match repaymentMethod inputs with
      | PrincipalEqual =>
          let principalPayment :=
            loanAmount inputs / ofZ effectiveRemainingMonths in
          (principalPayment, principalPayment + interestPayment)
      | PrincipalInterestEqual =>
          let n := effectiveRemainingMonths in
          let monthlyTotal := annuity monthlyRate n in
          (monthlyTotal - interestPayment, monthlyTotal)
      end in
  let remainingBalance' := remainingBalance s - principalPayment in
  let remainingBalance' :=
    if remainingBalance' <? 0 then 0 else remainingBalance' in
  {| month := m; payment := monthlyTotal; principal := principalPayment;
     interest := interestPayment; balance := remainingBalance' |}.

(** One iteration of the first loop (lines 52-92). *)
Definition actualBody (s : ActualLoop) (m : Z) : ActualLoop :=
  let e := monthEntry s m in
  {| remainingBalance := balance e;
     accInterest := accInterest s + interest e;
     accPayment := accPayment s + payment e;
     accPayments := accPayments s ++ [e] |}.

Definition actualInit : ActualLoop :=
  {| remainingBalance := loanAmount inputs;
     accInterest := 0; accPayment := 0; accPayments := [] |}.

Definition actualAfter (k : nat) : ActualLoop :=
  fold_left actualBody (monthsUpTo k) actualInit.

Definition actualLoop : ActualLoop := actualAfter (Z.to_nat totalMonths).

(** The [monthlyPayments] of the result. *)
Definition monthlyPayments : list MonthlyPayment := accPayments actualLoop.

End Engine.

(** Sums over the schedule, added up in schedule order. *)
Definition sumOf (f : MonthlyPayment -> float) (l : list MonthlyPayment)
    : float :=
  fold_left (fun acc e => acc + f e) l 0.


Definition positive (x : float) : bool := 0 <? x.


End Double.

(** ** Finite values *)

Lemma Qltb_true (a b : Q) : Qltb a b = true <-> a < b.
Proof.
  unfold Qltb. rewrite Qlt_alt. destruct (a ?= b)%Q; intuition congruence.
Qed.

Lemma Qltb_false (a b : Q) : Qltb a b = false <-> b <= a.
Proof.
  rewrite <- Bool.not_true_iff_false, Qltb_true. split.
  - apply Qnot_lt_le.
  - apply Qle_not_lt.
Qed.

Lemma Qsign_Eq (a : Q) : Qsign a = Eq <-> a == 0.
Proof. unfold Qsign. symmetry. apply Qeq_alt. Qed.

Lemma Qsign_Lt (a : Q) : Qsign a = Lt <-> a < 0.
Proof. unfold Qsign. symmetry. apply Qlt_alt. Qed.

Lemma Qsign_Gt (a : Q) : Qsign a = Gt <-> 0 < a.
Proof. unfold Qsign. symmetry. apply Qgt_alt. Qed.

Ltac num_simpl :=
  cbn [val Num.add Num.sub Num.mul Num.div Num.ltb Num.leb Num.eqb
       Num.isFinite Num.ofZ] in *.

Section ValLemmas.

Variables (x y : num) (a b : Q).
Hypothesis Hx : val x a.
Hypothesis Hy : val y b.

Lemma val_compat (a' : Q) : a == a' -> val x a'.
Proof.
  destruct x; num_simpl; try contradiction. intros E. now rewrite Hx.
Qed.

Lemma val_add : val (x + y) (a + b).
Proof.
  destruct x, y; num_simpl; try contradiction.
  now rewrite Qred_correct, Hx, Hy.
Qed.

Lemma val_sub : val (x - y) (a - b).
Proof.
  destruct x, y; num_simpl; try contradiction.
  now rewrite Qred_correct, Hx, Hy.
Qed.

Lemma val_mul : val (x * y) (a * b).
Proof.
  destruct x, y; num_simpl; try contradiction.
  now rewrite Qred_correct, Hx, Hy.
Qed.

Lemma val_div : ~ b == 0 -> val (x / y) (a / b).
Proof.
  intros Hb. destruct x, y; num_simpl; try contradiction.
  destruct (Qsign q0) eqn:E; num_simpl.
  - pose proof (proj1 (Qsign_Eq q0) E) as E0. rewrite Hy in E0. contradiction.
  - now rewrite Qred_correct, Hx, Hy.
  - now rewrite Qred_correct, Hx, Hy.
Qed.

Lemma val_pow (n : Z) : (0 <= n)%Z -> val (Num.pow x n) (a ^ n).
Proof.
  intros Hn. unfold Num.pow. destruct (Z.eqb_spec n 0) as [->|Hn0].
  - simpl. reflexivity.
  - destruct x; num_simpl; try contradiction.
    replace (n <? 0)%Z with false by (symmetry; apply Z.ltb_ge; exact Hn).
    simpl. now rewrite Qred_correct, Hx.
Qed.

Lemma val_ltb : (x <? y)%num = Qltb a b.
Proof.
  destruct x, y; num_simpl; try contradiction.
  unfold Qltb. now rewrite Hx, Hy.
Qed.

Lemma val_leb : (x <=? y)%num = negb (Qltb b a).
Proof.
  destruct x, y; num_simpl; try contradiction.
  unfold Qltb. now rewrite Hx, Hy.
Qed.

Lemma val_eqb : (x === y)%num = true <-> a == b.
Proof.
  destruct x, y; num_simpl; try contradiction.
  rewrite Qeq_bool_iff, Hx, Hy. reflexivity.
Qed.

(** The floor at zero of the two loops. *)
Lemma val_floor_keep :
  0 <= a -> val (if (x <? Fin 0)%num then Fin 0 else x) a.
Proof.
  intros Ha. destruct x; num_simpl; try contradiction.
  destruct (Qltb q 0) eqn:E; [|exact Hx].
  apply Qltb_true in E. rewrite Hx in E. simpl. lra.
Qed.

Lemma val_floor_zero :
  a <= 0 -> val (if (x <? Fin 0)%num then Fin 0 else x) 0.
Proof.
  intros Ha. destruct x; num_simpl; try contradiction.
  destruct (Qltb q 0) eqn:E; num_simpl; [reflexivity|].
  apply Qltb_false in E. rewrite Hx in *. lra.
Qed.

End ValLemmas.

Lemma val_Fin (q : Q) : val (Fin q) q.
Proof. simpl. reflexivity. Qed.

Lemma val_ofZ (z : Z) : val (ofZ z) (inject_Z z).
Proof. simpl. reflexivity. Qed.

Create HintDb numval discriminated.
#[local] Hint Resolve val_Fin val_ofZ val_add val_sub val_mul : numval.

(** ** The two loops, iteration by iteration *)

Lemma monthsUpTo_S (k : nat) :
  monthsUpTo (S k) = monthsUpTo k ++ [Z.of_nat (S k)].
Proof.
  unfold monthsUpTo. rewrite seq_S, map_app. reflexivity.
Qed.

Lemma actualAfter_S (inp : LoanInputs) (k : nat) :
  actualAfter inp (S k) = actualBody inp (actualAfter inp k) (Z.of_nat (S k)).
Proof.
  unfold actualAfter. rewrite monthsUpTo_S, fold_left_app. reflexivity.
Qed.

Lemma stressAfter_S (inp : LoanInputs) (k : nat) :
  stressAfter inp (S k) = stressBody inp (stressAfter inp k) (Z.of_nat (S k)).
Proof.
  unfold stressAfter. rewrite monthsUpTo_S, fold_left_app. reflexivity.
Qed.

Lemma sumOf_snoc (f : MonthlyPayment -> num) (l : list MonthlyPayment)
    (e : MonthlyPayment) :
  sumOf f (l ++ [e]) = (sumOf f l + f e)%num.
Proof. unfold sumOf. rewrite fold_left_app. reflexivity. Qed.

(** The schedule has one entry per iteration, and entry [i] (from 0) is the
    one month [i + 1] computes from the loop variables after [i] iterations. *)
Lemma accPayments_length (inp : LoanInputs) (k : nat) :
  length (accPayments (actualAfter inp k)) = k.
Proof.
  induction k as [|k IH]; [reflexivity|].
  rewrite actualAfter_S. cbn [actualBody accPayments].
  rewrite length_app, IH. simpl. lia.
Qed.

Lemma accPayments_nth (inp : LoanInputs) (k i : nat) :
  (i < k)%nat ->
  nth_error (accPayments (actualAfter inp k)) i
  = Some (monthEntry inp (actualAfter inp i) (Z.of_nat (S i))).
Proof.
  induction k as [|k IH]; [lia|]. intros Hi.
  rewrite actualAfter_S. cbn [actualBody accPayments].
  destruct (Nat.eq_dec i k) as [->|Hne].
  - rewrite nth_error_app2 by (rewrite accPayments_length; lia).
    rewrite accPayments_length, Nat.sub_diag. reflexivity.
  - rewrite nth_error_app1 by (rewrite accPayments_length; lia).
    apply IH. lia.
Qed.

Lemma monthlyPayments_nth (inp : LoanInputs) (i : nat) (e : MonthlyPayment) :
  nth_error (monthlyPayments (calculateDSR inp)) i = Some e ->
  (i < Z.to_nat (totalMonths inp))%nat
  /\ e = monthEntry inp (actualAfter inp i) (Z.of_nat (S i)).
Proof.
  cbn [calculateDSR monthlyPayments]. unfold actualLoop. intros H.
  assert (Hi : (i < Z.to_nat (totalMonths inp))%nat).
  { rewrite <- (accPayments_length inp (Z.to_nat (totalMonths inp))).
    apply nth_error_Some. congruence. }
  split; [exact Hi|]. rewrite (accPayments_nth inp _ i Hi) in H. congruence.
Qed.

(** ** The annuity in closed form, for [q > 0] and [n >= 1] *)

Section Annuity.

Variables (P q : Q) (n : Z).
Hypothesis Hq : 0 < q.
Hypothesis Hn : (1 <= n)%Z.

Lemma growth_gt_1 : 1 < growth q n.
Proof. unfold growth. apply Qpower_1_lt; [lra | lia]. Qed.

Lemma balanceQ_0 : balanceQ P q n 0 == P.
Proof.
  pose proof growth_gt_1 as HA. unfold balanceQ.
  change ((1 + q) ^ 0) with 1. field. lra.
Qed.

Lemma balanceQ_end : balanceQ P q n n == 0.
Proof.
  pose proof growth_gt_1 as HA. unfold balanceQ. fold (growth q n).
  field. lra.
Qed.

Lemma balanceQ_succ (j : Z) :
  (0 <= j)%Z ->
  balanceQ P q n (j + 1)
  == balanceQ P q n j - (annuityQ P q n - balanceQ P q n j * q).
Proof.
  intros Hj. pose proof growth_gt_1 as HA. unfold balanceQ, annuityQ.
  rewrite Qpower_plus by lra. change ((1 + q) ^ 1) with (1 + q).
  generalize dependent (growth q n). intros A HA.
  generalize ((1 + q) ^ j). intros B. field. lra.
Qed.

Lemma balanceQ_nonneg (j : Z) : 0 <= P -> (j <= n)%Z -> 0 <= balanceQ P q n j.
Proof.
  intros HP Hj. pose proof growth_gt_1 as HA. unfold balanceQ.
  assert (HB : (1 + q) ^ j <= growth q n).
  { unfold growth. apply Qpower_le_compat_l; [exact Hj | lra]. }
  apply Qle_shift_div_l; [lra|]. rewrite Qmult_0_l.
  apply Qmult_le_0_compat; lra.
Qed.

(** The annuity payment covers the interest on any balance up to [P]. *)
Lemma annuityQ_covers (b : Q) : 0 <= P -> b <= P -> b * q <= annuityQ P q n.
Proof.
  intros HP Hb. pose proof growth_gt_1 as HA. unfold annuityQ.
  apply Qle_shift_div_l; [lra|].
  assert (H1 : b * q <= P * q) by (apply Qmult_le_compat_r; lra).
  assert (H2 : 0 <= P * q) by (apply Qmult_le_0_compat; lra).
  assert (H3 : b * q * (growth q n - 1) <= P * q * (growth q n - 1)).
  { apply Qmult_le_compat_r; lra. }
  lra.
Qed.

End Annuity.

(** ** The annuity payment grows with the rate

    The payment is the principal over the present value of [n] payments
    of 1, and each of these is worth less at a higher rate. *)

Lemma Qpower_succ (a : Q) (k : nat) :
  ~ a == 0 -> a ^ Z.of_nat (S k) == a ^ Z.of_nat k * a.
Proof.
  intros Ha. rewrite Nat2Z.inj_succ, <- Z.add_1_r, Qpower_plus by exact Ha.
  reflexivity.
Qed.

Lemma Qpower_lt_base (a b : Q) (k : nat) :
  0 < a -> a < b -> a ^ Z.of_nat (S k) < b ^ Z.of_nat (S k).
Proof.
  intros Ha Hab. induction k as [|k IH].
  - exact Hab.
  - rewrite (Qpower_succ a (S k)), (Qpower_succ b (S k)) by lra.
    apply Qmult_lt_compat_nonneg; split; try assumption; try lra.
    apply Qpower_0_le. lra.
Qed.

Section DiscountSum.

Variable q : Q.
Hypothesis Hq : 0 < q.

Lemma discount_pos (k : nat) : 0 < / (1 + q) ^ Z.of_nat k.
Proof. apply Qinv_lt_0_compat, Qpower_0_lt. lra. Qed.

Lemma discountSum_closed (k : nat) :
  q * discountSum q k == 1 - / (1 + q) ^ Z.of_nat k.
Proof.
  induction k as [|k IH].
  - cbn [discountSum Z.of_nat]. change ((1 + q) ^ 0) with 1. field.
  - cbn [discountSum]. rewrite Qmult_plus_distr_r, IH.
    rewrite Qpower_succ by lra.
    pose proof (Qpower_0_lt (1 + q) (Z.of_nat k) ltac:(lra)) as HB.
    generalize dependent ((1 + q) ^ Z.of_nat k). intros B _ HB.
    field. split; lra.
Qed.

Lemma discountSum_pos (k : nat) : 0 < discountSum q (S k).
Proof.
  induction k as [|k IH].
  - cbn [discountSum]. pose proof (discount_pos 1). lra.
  - change (discountSum q (S (S k)))
      with (discountSum q (S k) + / (1 + q) ^ Z.of_nat (S (S k))).
    pose proof (discount_pos (S (S k))). lra.
Qed.

Lemma annuityQ_discountSum (P : Q) (n : Z) :
  (1 <= n)%Z -> annuityQ P q n == P / discountSum q (Z.to_nat n).
Proof.
  intros Hn. pose proof (growth_gt_1 q n Hq Hn) as HA.
  pose proof (discountSum_closed (Z.to_nat n)) as Hc.
  rewrite Z2Nat.id in Hc by lia. fold (growth q n) in Hc.
  assert (HS : discountSum q (Z.to_nat n)
               == (1 - / growth q n) / q).
  { rewrite <- Hc. field. lra. }
  rewrite HS. unfold annuityQ. field. repeat split; lra.
Qed.

End DiscountSum.

Lemma discountSum_decreasing (q1 q2 : Q) (k : nat) :
  0 < q1 -> q1 < q2 -> discountSum q2 (S k) < discountSum q1 (S k).
Proof.
  intros H1 H12.
  assert (Hterm : forall i : nat,
            / (1 + q2) ^ Z.of_nat (S i) < / (1 + q1) ^ Z.of_nat (S i)).
  { intros i.
    apply (proj1 (Qinv_lt_contravar _ _
                    (Qpower_0_lt (1 + q1) (Z.of_nat (S i)) ltac:(lra))
                    (Qpower_0_lt (1 + q2) (Z.of_nat (S i)) ltac:(lra)))).
    apply Qpower_lt_base; lra. }
  induction k as [|k IH].
  - cbn [discountSum]. pose proof (Hterm 0%nat). lra.
  - change (discountSum q2 (S (S k)))
      with (discountSum q2 (S k) + / (1 + q2) ^ Z.of_nat (S (S k))).
    change (discountSum q1 (S (S k)))
      with (discountSum q1 (S k) + / (1 + q1) ^ Z.of_nat (S (S k))).
    pose proof (Hterm (S k)). lra.
Qed.

Lemma annuityQ_increasing (P q1 q2 : Q) (n : Z) :
  0 < P -> 0 < q1 -> q1 < q2 -> (1 <= n)%Z ->
  annuityQ P q1 n < annuityQ P q2 n.
Proof.
  intros HP H1 H12 Hn.
  rewrite (annuityQ_discountSum q1 H1 P n Hn).
  rewrite (annuityQ_discountSum q2 ltac:(lra) P n Hn).
  destruct (Z.to_nat n) as [|k] eqn:E; [lia|].
  pose proof (discountSum_pos q1 H1 k) as Hs1.
  pose proof (discountSum_pos q2 ltac:(lra) k) as Hs2.
  pose proof (discountSum_decreasing q1 q2 k H1 H12) as Hdec.
  unfold Qdiv. apply Qmult_lt_l; [exact HP|].
  apply (proj1 (Qinv_lt_contravar _ _ Hs2 Hs1)). exact Hdec.
Qed.

(** ** One month of the schedule, branch by branch *)

Section Months.

Variable inp : LoanInputs.

Let P : Q := loanAmount inp.
Let g : Z := graceMonths inp.
Let n : Z := (totalMonths inp - graceMonths inp)%Z.

Lemma val_monthlyRate : val (monthlyRate inp) (rateQ inp).
Proof.
  unfold monthlyRate, rateQ.
  repeat (apply val_div; [| apply val_Fin | lra]). apply val_Fin.
Qed.

Lemma val_annuity :
  0 < rateQ inp -> (1 <= n)%Z ->
  val (annuity inp (monthlyRate inp) n) (annuityQ P (rateQ inp) n).
Proof.
  intros Hq Hn. pose proof (growth_gt_1 (rateQ inp) n Hq Hn) as HA.
  pose proof val_monthlyRate as Hr.
  assert (Hpow : val (Num.pow (Fin 1 + monthlyRate inp) n)
                   (growth (rateQ inp) n)).
  { apply val_pow; [| lia]. apply val_add; [apply val_Fin | exact Hr]. }
  unfold annuity, annuityQ. apply val_div.
  - repeat apply val_mul; auto with numval.
  - apply val_sub; auto with numval.
  - lra.
Qed.

Variables (s : ActualLoop) (m : Z) (b : Q).
Hypothesis Hb : val (remainingBalance s) b.

Lemma entry_month : month (monthEntry inp s m) = m.
Proof.
  unfold monthEntry. destruct (m <=? graceMonths inp)%Z; [reflexivity|].
  destruct (repaymentMethod inp); reflexivity.
Qed.

Lemma entry_interest :
  interest (monthEntry inp s m) = (remainingBalance s * monthlyRate inp)%num.
Proof.
  unfold monthEntry. destruct (m <=? graceMonths inp)%Z; [reflexivity|].
  destruct (repaymentMethod inp); reflexivity.
Qed.

Lemma val_entry_interest : val (interest (monthEntry inp s m)) (b * rateQ inp).
Proof.
  rewrite entry_interest. apply val_mul; [exact Hb | apply val_monthlyRate].
Qed.

(** Grace period: interest only, and the balance is kept (floored at 0). *)
Lemma entry_grace :
  (m <= g)%Z ->
  let e := monthEntry inp s m in
  principal e = Fin 0 /\ payment e = interest e
  /\ (0 <= b -> val (balance e) b) /\ (b <= 0 -> val (balance e) 0).
Proof.
  intros Hm. cbv zeta. unfold monthEntry.
  replace (m <=? graceMonths inp)%Z with true
    by (symmetry; apply Z.leb_le; exact Hm).
  cbn [month payment principal interest balance].
  assert (Hs : val (remainingBalance s - Fin 0) b).
  { apply val_compat with (a := b - 0); [| ring].
    apply val_sub; [exact Hb | apply val_Fin]. }
  repeat split.
  - intros H0. apply val_floor_keep; assumption.
  - intros H0. apply (val_floor_zero _ b); assumption.
Qed.

(** Equal principal: the constant share [P / n] of the original amount. *)
Lemma entry_principalEqual :
  (g < m)%Z -> repaymentMethod inp = PrincipalEqual -> (n <> 0)%Z ->
  let e := monthEntry inp s m in
  let share := P / inject_Z n in
  val (principal e) share /\ val (payment e) (share + b * rateQ inp)
  /\ (share <= b -> val (balance e) (b - share))
  /\ (b <= share -> val (balance e) 0).
Proof.
  intros Hm Hmeth Hn. cbv zeta. unfold monthEntry.
  replace (m <=? graceMonths inp)%Z with false
    by (symmetry; apply Z.leb_gt; exact Hm).
  rewrite Hmeth. cbn [month payment principal interest balance].
  assert (Hshare : val (Fin (loanAmount inp) / ofZ n) (P / inject_Z n)).
  { apply val_div; [apply val_Fin | apply val_ofZ |].
    change 0 with (inject_Z 0). rewrite inject_Z_injective. exact Hn. }
  fold n. pose proof val_monthlyRate as Hr.
  assert (Hs : val (remainingBalance s - Fin (loanAmount inp) / ofZ n)
                 (b - P / inject_Z n)) by (apply val_sub; assumption).
  repeat split.
  - exact Hshare.
  - apply val_add; [exact Hshare | apply val_mul; assumption].
  - intros H0. apply val_floor_keep; [exact Hs | lra].
  - intros H0. apply (val_floor_zero _ (b - P / inject_Z n)); [exact Hs | lra].
Qed.

(** Equal installment: the annuity payment, less the interest. *)
Lemma entry_principalInterestEqual :
  (g < m)%Z -> repaymentMethod inp = PrincipalInterestEqual ->
  0 < rateQ inp -> (1 <= n)%Z ->
  let e := monthEntry inp s m in
  let pmt := annuityQ P (rateQ inp) n in
  val (payment e) pmt /\ val (principal e) (pmt - b * rateQ inp)
  /\ (pmt - b * rateQ inp <= b -> val (balance e) (b - (pmt - b * rateQ inp)))
  /\ (b <= pmt - b * rateQ inp -> val (balance e) 0).
Proof.
  intros Hm Hmeth Hq Hn. cbv zeta. unfold monthEntry.
  replace (m <=? graceMonths inp)%Z with false
    by (symmetry; apply Z.leb_gt; exact Hm).
  rewrite Hmeth. cbn [month payment principal interest balance].
  fold n. pose proof (val_annuity Hq Hn) as Hpmt.
  pose proof val_monthlyRate as Hr.
  assert (Hp : val (annuity inp (monthlyRate inp) n
                    - remainingBalance s * monthlyRate inp)
                 (annuityQ P (rateQ inp) n - b * rateQ inp)).
  { apply val_sub; [exact Hpmt | apply val_mul; assumption]. }
  assert (Hs : val (remainingBalance s
                    - (annuity inp (monthlyRate inp) n
                       - remainingBalance s * monthlyRate inp))
                 (b - (annuityQ P (rateQ inp) n - b * rateQ inp)))
    by (apply val_sub; assumption).
  repeat split.
  - exact Hpmt.
  - exact Hp.
  - intros H0. apply val_floor_keep; [exact Hs | lra].
  - intros H0. eapply val_floor_zero; [exact Hs | lra].
Qed.

End Months.

(** ** The schedule, phase by phase *)

Lemma inject_Z_S (k : nat) :
  inject_Z (Z.of_nat (S k)) == inject_Z (Z.of_nat k) + 1.
Proof. rewrite Nat2Z.inj_succ, <- Z.add_1_r, inject_Z_plus. reflexivity. Qed.

Section Schedule.

Variable inp : LoanInputs.

Let P : Q := loanAmount inp.
Let q : Q := rateQ inp.
Let g : Z := graceMonths inp.
Let n : Z := (totalMonths inp - graceMonths inp)%Z.

Hypothesis HP : 0 <= P.

(** During the grace period nothing is repaid: the balance stays the loan
    amount and every month pays the same interest. *)
Lemma grace_phase (k : nat) :
  (Z.of_nat k <= g)%Z ->
  let s := actualAfter inp k in
  val (remainingBalance s) P
  /\ val (accInterest s) (inject_Z (Z.of_nat k) * (P * q))
  /\ val (accPayment s) (inject_Z (Z.of_nat k) * (P * q))
  /\ val (sumOf principal (accPayments s)) 0.
Proof.
  cbv zeta. induction k as [|k IH]; intros Hk.
  - cbn. repeat split; try reflexivity; ring.
  - destruct IH as (Hbal & Hint & Hpay & Hsum); [lia|].
    rewrite actualAfter_S. cbn [actualBody remainingBalance accInterest
      accPayment accPayments].
    destruct (entry_grace inp _ (Z.of_nat (S k)) P Hbal Hk)
      as (Hpr & Hpi & Hkeep & _).
    pose proof (val_entry_interest inp _ (Z.of_nat (S k)) P Hbal) as Hi.
    rewrite sumOf_snoc, Hpr, Hpi. repeat split.
    + apply Hkeep, HP.
    + eapply val_compat; [apply val_add; [exact Hint | exact Hi]|].
      rewrite inject_Z_S. fold q. ring.
    + eapply val_compat; [apply val_add; [exact Hpay | exact Hi]|].
      rewrite inject_Z_S. fold q. ring.
    + eapply val_compat; [apply val_add; [exact Hsum | apply val_Fin]|]. ring.
Qed.

Hypothesis Hg : (0 <= g)%Z.
Hypothesis Hn : (1 <= n)%Z.

(** Equal installment after the grace period: the balance follows the
    closed form, so the floor at zero never applies. *)
Lemma installment_phase (j : nat) :
  repaymentMethod inp = PrincipalInterestEqual -> 0 < q ->
  (Z.of_nat j <= n)%Z ->
  let s := actualAfter inp (Z.to_nat g + j) in
  let pmt := annuityQ P q n in
  let c := balanceQ P q n (Z.of_nat j) in
  val (remainingBalance s) c
  /\ val (accInterest s)
       (inject_Z g * (P * q) + inject_Z (Z.of_nat j) * pmt - (P - c))
  /\ val (accPayment s) (inject_Z g * (P * q) + inject_Z (Z.of_nat j) * pmt)
  /\ val (sumOf principal (accPayments s)) (P - c).
Proof.
  intros Hmeth Hq. cbv zeta. induction j as [|j IH]; intros Hj.
  - rewrite Nat.add_0_r.
    destruct (grace_phase (Z.to_nat g)) as (Hbal & Hint & Hpay & Hsum);
      [lia|].
    rewrite Z2Nat.id in Hint, Hpay by exact Hg.
    pose proof (balanceQ_0 P q n Hq Hn) as H0. cbn [Z.of_nat].
    repeat split; (eapply val_compat; [eassumption|]); rewrite ?H0;
      change (inject_Z 0) with 0; ring.
  - destruct IH as (Hbal & Hint & Hpay & Hsum); [lia|].
    rewrite Nat.add_succ_r, actualAfter_S.
    cbn [actualBody remainingBalance accInterest accPayment accPayments].
    set (s := actualAfter inp (Z.to_nat g + j)) in *.
    set (m := Z.of_nat (S (Z.to_nat g + j))).
    assert (Hm : (g < m)%Z) by (unfold m; lia).
    destruct (entry_principalInterestEqual inp s m _ Hbal Hm Hmeth Hq Hn)
      as (Hpmt & Hpr & Hkeep & _).
    pose proof (val_entry_interest inp s m _ Hbal) as Hi.
    pose proof (balanceQ_succ P q n Hq Hn (Z.of_nat j) ltac:(lia)) as Hc.
    pose proof (balanceQ_nonneg P q n Hq Hn (Z.of_nat j + 1) HP ltac:(lia))
      as Hc0.
    fold P q n in Hpmt, Hpr, Hkeep, Hi.
    replace (Z.of_nat (S j)) with (Z.of_nat j + 1)%Z by lia.
    rewrite sumOf_snoc. repeat split.
    + eapply val_compat; [apply Hkeep; lra | rewrite Hc; reflexivity].
    + eapply val_compat; [apply val_add; [exact Hint | exact Hi]|].
      rewrite Hc, inject_Z_plus. change (inject_Z 1) with 1. ring.
    + eapply val_compat; [apply val_add; [exact Hpay | exact Hpmt]|].
      rewrite inject_Z_plus. change (inject_Z 1) with 1. ring.
    + eapply val_compat; [apply val_add; [exact Hsum | exact Hpr]|].
      rewrite Hc. ring.
Qed.

(** Equal principal after the grace period: a constant share each month. *)
Lemma principal_phase (j : nat) :
  repaymentMethod inp = PrincipalEqual ->
  (Z.of_nat j <= n)%Z ->
  let s := actualAfter inp (Z.to_nat g + j) in
  let share := P / inject_Z n in
  val (remainingBalance s) (P - inject_Z (Z.of_nat j) * share)
  /\ val (sumOf principal (accPayments s)) (inject_Z (Z.of_nat j) * share).
Proof.
  intros Hmeth. cbv zeta.
  assert (HnQ : 0 < inject_Z n).
  { change 0 with (inject_Z 0). rewrite <- Zlt_Qlt. lia. }
  assert (Hshare : 0 <= P / inject_Z n).
  { apply Qle_shift_div_l; [exact HnQ | lra]. }
  assert (Hfull : inject_Z n * (P / inject_Z n) == P) by (field; lra).
  induction j as [|j IH]; intros Hj.
  - rewrite Nat.add_0_r.
    destruct (grace_phase (Z.to_nat g)) as (Hbal & _ & _ & Hsum); [lia|].
    cbn [Z.of_nat]. change (inject_Z 0) with 0.
    split; (eapply val_compat; [eassumption|]); ring.
  - destruct IH as (Hbal & Hsum); [lia|].
    rewrite Nat.add_succ_r, actualAfter_S.
    cbn [actualBody remainingBalance accInterest accPayment accPayments].
    set (s := actualAfter inp (Z.to_nat g + j)) in *.
    set (m := Z.of_nat (S (Z.to_nat g + j))).
    assert (Hm : (g < m)%Z) by (unfold m; lia).
    destruct (entry_principalEqual inp s m _ Hbal Hm Hmeth ltac:(fold n; lia))
      as (Hpr & _ & Hkeep & _).
    fold P n in Hpr, Hkeep.
    assert (Hle : inject_Z (Z.of_nat (S j)) * (P / inject_Z n) <= P).
    { rewrite <- Hfull at 2. apply Qmult_le_compat_r; [| exact Hshare].
      rewrite <- Zle_Qle. exact Hj. }
    rewrite inject_Z_S in Hle. rewrite sumOf_snoc. split.
    + eapply val_compat; [apply Hkeep; lra | rewrite inject_Z_S; ring].
    + eapply val_compat; [apply val_add; [exact Hsum | exact Hpr]|].
      rewrite inject_Z_S. ring.
Qed.

End Schedule.

(** ** The whole schedule *)

Lemma rateQ_pos (inp : LoanInputs) : 0 < interestRate inp -> 0 < rateQ inp.
Proof.
  unfold rateQ. intros H.
  repeat (apply Qlt_shift_div_l; [reflexivity | rewrite Qmult_0_l]). exact H.
Qed.

Lemma rateQ_nonneg (inp : LoanInputs) : 0 <= interestRate inp -> 0 <= rateQ inp.
Proof.
  unfold rateQ. intros H.
  repeat (apply Qle_shift_div_l; [reflexivity | rewrite Qmult_0_l]). exact H.
Qed.

Section WholeSchedule.

Variable inp : LoanInputs.

Let P : Q := loanAmount inp.
Let q : Q := rateQ inp.
Let g : Z := graceMonths inp.
Let n : Z := (totalMonths inp - graceMonths inp)%Z.

Hypothesis HP : 0 <= P.
Hypothesis Hgrace : (0 <= gracePeriodYear inp < loanTermYear inp)%Z.

Lemma months_split :
  (0 <= g)%Z /\ (1 <= n)%Z
  /\ Z.to_nat (totalMonths inp) = (Z.to_nat g + Z.to_nat n)%nat.
Proof. unfold g, n, totalMonths, graceMonths. lia. Qed.

(** Equal installment at a positive rate: the totals in closed form. *)
Lemma installment_totals :
  repaymentMethod inp = PrincipalInterestEqual -> 0 < interestRate inp ->
  let r := calculateDSR inp in
  let pmt := annuityQ P q n in
  val (sumOf principal (monthlyPayments r)) P
  /\ val (totalInterest r) (inject_Z g * (P * q) + inject_Z n * pmt - P)
  /\ val (totalPayment r) (inject_Z g * (P * q) + inject_Z n * pmt).
Proof.
  intros Hmeth Hrate. cbv zeta.
  destruct months_split as (Hg & Hn & Hsplit).
  pose proof (rateQ_pos inp Hrate) as Hq.
  cbn [calculateDSR monthlyPayments totalInterest totalPayment].
  unfold actualLoop. rewrite Hsplit.
  destruct (installment_phase inp HP Hg Hn (Z.to_nat n) Hmeth Hq)
    as (_ & Hint & Hpay & Hsum); [lia|].
  rewrite Z2Nat.id in Hint, Hpay, Hsum by lia.
  pose proof (balanceQ_end P q n Hq Hn) as Hend.
  unfold P, q, g, n in *. repeat split.
  - eapply val_compat; [exact Hsum | rewrite Hend; ring].
  - eapply val_compat; [exact Hint | rewrite Hend; ring].
  - exact Hpay.
Qed.


End WholeSchedule.





(** ** The stress pass is the first loop at the stressed rate *)

Lemma stressInterestRate_stressed (inp : LoanInputs) :
  stressInterestRate inp = Fin (interestRate (stressedInputs inp)).
Proof.
  unfold stressInterestRate, stressRate, stressedInputs, stressAddOn.
  destruct (applyStressDsr inp); reflexivity.
Qed.

Lemma stressMonthlyRate_stressed (inp : LoanInputs) :
  stressMonthlyRate inp = monthlyRate (stressedInputs inp).
Proof.
  unfold stressMonthlyRate, monthlyRate.
  rewrite stressInterestRate_stressed. reflexivity.
Qed.

Lemma stressBody_actualBody (inp : LoanInputs) (s : StressLoop)
    (a : ActualLoop) (m : Z) :
  stressBalance s = remainingBalance a ->
  accStressInterest s = accInterest a ->
  let s' := stressBody inp s m in
  let a' := actualBody (stressedInputs inp) a m in
  stressBalance s' = remainingBalance a'
  /\ accStressInterest s' = accInterest a'.
Proof.
  intros Hbal Hint. cbv zeta. unfold stressBody, actualBody, monthEntry.
  rewrite stressMonthlyRate_stressed, Hbal, Hint.
  change (graceMonths (stressedInputs inp)) with (graceMonths inp).
  change (totalMonths (stressedInputs inp)) with (totalMonths inp).
  change (repaymentMethod (stressedInputs inp)) with (repaymentMethod inp).
  change (annuity (stressedInputs inp)) with (annuity inp).
  change (loanAmount (stressedInputs inp)) with (loanAmount inp).
  destruct (Z.ltb_spec (graceMonths inp) m) as [Hm|Hm].
  - replace (m <=? graceMonths inp)%Z with false
      by (symmetry; apply Z.leb_gt; exact Hm).
    destruct (repaymentMethod inp); split; reflexivity.
  - replace (m <=? graceMonths inp)%Z with true
      by (symmetry; apply Z.leb_le; exact Hm).
    split; reflexivity.
Qed.

Lemma stressAfter_actualAfter (inp : LoanInputs) (k : nat) :
  stressBalance (stressAfter inp k)
  = remainingBalance (actualAfter (stressedInputs inp) k)
  /\ accStressInterest (stressAfter inp k)
     = accInterest (actualAfter (stressedInputs inp) k).
Proof.
  induction k as [|k [IHb IHi]]; [split; reflexivity|].
  rewrite stressAfter_S, actualAfter_S. apply stressBody_actualBody; assumption.
Qed.

(** What the stress pass retains is the total interest of the schedule at
    the stressed rate. *)
Lemma totalStressInterest_stressed (inp : LoanInputs) :
  totalStressInterest inp = totalInterest (calculateDSR (stressedInputs inp)).
Proof.
  unfold totalStressInterest. cbn [calculateDSR totalInterest].
  unfold actualLoop.
  change (totalMonths (stressedInputs inp)) with (totalMonths inp).
  apply stressAfter_actualAfter.
Qed.

(** ** The ratio *)

Lemma inject_Z_nonzero (z : Z) : (z <> 0)%Z -> ~ inject_Z z == 0.
Proof.
  intros Hz. change 0 with (inject_Z 0). rewrite inject_Z_injective. exact Hz.
Qed.

(** The ratio from finite burdens, for a positive income. *)
Lemma val_dsrRatio (inp : LoanInputs) (a t : Q) :
  0 < annualIncome inp -> (loanTermYear inp <> 0)%Z ->
  val (annualPrincipalBurden inp) a -> val (totalStressInterest inp) t ->
  val (dsrRatio (calculateDSR inp))
      ((a + t / inject_Z (loanTermYear inp)) / annualIncome inp * 100).
Proof.
  intros Hinc Hterm Ha Ht. cbn [calculateDSR dsrRatio].
  replace (Qltb 0 (annualIncome inp)) with true
    by (symmetry; apply Qltb_true; exact Hinc).
  apply val_mul; [| apply val_Fin].
  apply val_div; [| apply val_Fin | lra].
  unfold annualRepaymentForDsr, annualInterestBurden.
  apply val_add; [exact Ha|].
  apply val_div; [exact Ht | apply val_ofZ | apply inject_Z_nonzero, Hterm].
Qed.

(** The stress interest of an equal-installment loan, in closed form. *)
Lemma val_totalStressInterest_installment (inp : LoanInputs) :
  0 <= loanAmount inp -> 0 <= interestRate inp ->
  0 < interestRate inp + stressAddOn inp ->
  (0 <= gracePeriodYear inp < loanTermYear inp)%Z ->
  repaymentMethod inp = PrincipalInterestEqual ->
  let inp' := stressedInputs inp in
  let n := (totalMonths inp - graceMonths inp)%Z in
  val (totalStressInterest inp)
      (inject_Z (graceMonths inp) * (loanAmount inp * rateQ inp')
       + inject_Z n * annuityQ (loanAmount inp) (rateQ inp') n
       - loanAmount inp).
Proof.
  intros HP _ Hrate Hgrace Hmeth. cbv zeta.
  rewrite totalStressInterest_stressed.
  apply (installment_totals (stressedInputs inp) HP Hgrace Hmeth).
  cbn [stressedInputs interestRate]. rewrite Qred_correct. exact Hrate.
Qed.

Lemma val_dsrRatio_installment_housing (inp : LoanInputs) :
  0 < annualIncome inp -> 0 <= loanAmount inp -> 0 <= interestRate inp ->
  0 < interestRate inp + stressAddOn inp ->
  (0 <= gracePeriodYear inp < loanTermYear inp)%Z ->
  repaymentMethod inp = PrincipalInterestEqual ->
  collateralType inp = Housing ->
  val (dsrRatio (calculateDSR inp)) (installmentHousingRatioQ inp).
Proof.
  intros Hinc HP Hrate Hstress Hgrace Hmeth Hcoll.
  apply val_dsrRatio; [exact Hinc | lia | |].
  - unfold annualPrincipalBurden. rewrite Hcoll.
    replace (0 <? loanTermYear inp - gracePeriodYear inp)%Z with true
      by (symmetry; apply Z.ltb_lt; lia).
    apply val_div; [apply val_Fin | apply val_ofZ |].
    apply inject_Z_nonzero. lia.
  - apply val_totalStressInterest_installment; assumption.
Qed.

Lemma Qdiv_lt_compat (x y z : Q) : 0 < z -> x < y -> x / z < y / z.
Proof.
  intros Hz Hxy. unfold Qdiv.
  apply Qmult_lt_compat_r; [apply Qinv_lt_0_compat, Hz | exact Hxy].
Qed.

(** Setting the stress flag raises the ratio of a housing loan repaid by
    equal installments. *)
Lemma installmentHousingRatioQ_stress (inp : LoanInputs) :
  0 < annualIncome inp -> 0 < loanAmount inp -> 0 < interestRate inp ->
  (0 <= gracePeriodYear inp < loanTermYear inp)%Z ->
  installmentHousingRatioQ (withStress false inp)
  < installmentHousingRatioQ (withStress true inp).
Proof.
  intros Hinc HP Hrate Hgrace.
  unfold installmentHousingRatioQ, rateQ, stressedInputs, stressAddOn,
    totalMonths, graceMonths.
  cbn [withStress annualIncome loanAmount interestRate loanTermYear
       gracePeriodYear repaymentMethod collateralType applyStressDsr].
  set (P := loanAmount inp) in *.
  set (n := (loanTermYear inp * 12 - gracePeriodYear inp * 12)%Z).
  set (q1 := Qred (interestRate inp + 0) / 100 / 12).
  set (q2 := Qred (interestRate inp + 3) / 100 / 12).
  assert (Hq1 : 0 < q1).
  { unfold q1.
    repeat (apply Qlt_shift_div_l; [reflexivity | rewrite Qmult_0_l]).
    rewrite Qred_correct. lra. }
  assert (Hq12 : q1 < q2).
  { unfold q1, q2. repeat (apply Qdiv_lt_compat; [reflexivity|]).
    rewrite !Qred_correct. lra. }
  assert (Hn : (1 <= n)%Z) by (unfold n; lia).
  pose proof (annuityQ_increasing P q1 q2 n HP Hq1 Hq12 Hn) as Hpmt.
  assert (HnQ : 0 < inject_Z n).
  { change 0 with (inject_Z 0). rewrite <- Zlt_Qlt. lia. }
  assert (HgQ : 0 <= inject_Z (gracePeriodYear inp * 12)).
  { change 0 with (inject_Z 0). rewrite <- Zle_Qle. lia. }
  assert (HtQ : 0 < inject_Z (loanTermYear inp)).
  { change 0 with (inject_Z 0). rewrite <- Zlt_Qlt. lia. }
  assert (Hgrace_part : inject_Z (gracePeriodYear inp * 12) * (P * q1)
                        <= inject_Z (gracePeriodYear inp * 12) * (P * q2)).
  { rewrite !(Qmult_comm (inject_Z (gracePeriodYear inp * 12))).
    apply Qmult_le_compat_r; [| exact HgQ].
    apply Qlt_le_weak, Qmult_lt_l; assumption. }
  assert (Hpay_part : inject_Z n * annuityQ P q1 n
                      < inject_Z n * annuityQ P q2 n).
  { apply Qmult_lt_l; assumption. }
  apply Qmult_lt_compat_r; [reflexivity|].
  apply Qdiv_lt_compat; [exact Hinc|].
  apply Qplus_lt_r. apply Qdiv_lt_compat; [exact HtQ|]. lra.
Qed.

(** Side conditions on the fields of a concrete input. *)
Ltac concrete :=
  vm_compute; repeat split;
  first [ reflexivity | let H := fresh in intros H; discriminate H ].

(** C8.  Scenario D (scenario A with the stress flag set) uses the rate 7.5
    and has a strictly greater ratio than scenario A. *)
Theorem scenarioD_exceeds_scenarioA :
  (stressDsrRateUsed (calculateDSR scenarioD) === Fin (15 # 2))%num = true
  /\ (dsrRatio (calculateDSR scenarioA)
      <? dsrRatio (calculateDSR scenarioD))%num = true.
Proof.
  split.
  - cbn [calculateDSR stressDsrRateUsed]. vm_compute. reflexivity.
  - change scenarioD with (withStress true scenarioA).
    change scenarioA with (withStress false scenarioA) at 1.
    assert (HA : val (dsrRatio (calculateDSR (withStress false scenarioA)))
                   (installmentHousingRatioQ (withStress false scenarioA))).
    { apply val_dsrRatio_installment_housing; concrete. }
    assert (HD : val (dsrRatio (calculateDSR (withStress true scenarioA)))
                   (installmentHousingRatioQ (withStress true scenarioA))).
    { clear HA. apply val_dsrRatio_installment_housing; concrete. }
    rewrite (val_ltb _ _ _ _ HA HD). clear HA HD. apply Qltb_true.
    apply installmentHousingRatioQ_stress; concrete.
Qed.

(** ** The aggregation *)

(** C1.  The principal burden is the loan amount over the years left after
    the grace period for housing collateral (the loan amount itself when no
    year is left) and over the whole term otherwise; the interest burden is
    the stress interest over the whole term; for a positive income the ratio
    is their sum over the income, times 100. *)
Theorem dsr_aggregation (inp : LoanInputs) :
  (collateralType inp = Housing ->
   (0 < loanTermYear inp - gracePeriodYear inp)%Z ->
   annualPrincipalBurden inp
   = (Fin (loanAmount inp)
      / ofZ (loanTermYear inp - gracePeriodYear inp))%num)
  /\ (collateralType inp = Housing ->
      (loanTermYear inp - gracePeriodYear inp <= 0)%Z ->
      annualPrincipalBurden inp = Fin (loanAmount inp))
  /\ (collateralType inp = Other ->
      annualPrincipalBurden inp
      = (Fin (loanAmount inp) / ofZ (loanTermYear inp))%num)
  /\ annualInterestBurden inp
     = (totalStressInterest inp / ofZ (loanTermYear inp))%num
  /\ (0 < annualIncome inp ->
      dsrRatio (calculateDSR inp)
      = ((annualPrincipalBurden inp + annualInterestBurden inp)
         / Fin (annualIncome inp) * Fin 100)%num).
Proof.
  unfold annualPrincipalBurden. repeat split.
  - intros -> Hpos. apply Z.ltb_lt in Hpos. rewrite Hpos. reflexivity.
  - intros -> Hneg. apply Z.ltb_ge in Hneg. rewrite Hneg. reflexivity.
  - intros ->. reflexivity.
  - intros Hinc. apply Qltb_true in Hinc.
    cbn [calculateDSR dsrRatio]. rewrite Hinc. reflexivity.
Qed.

Lemma dsr_aggregation_witness :
  let inp := scenario (9 # 2) 2 1 PrincipalInterestEqual Housing false in
  (0 < loanTermYear inp - gracePeriodYear inp)%Z /\ 0 < annualIncome inp
  /\ annualPrincipalBurden inp
     = (Fin (loanAmount inp)
        / ofZ (loanTermYear inp - gracePeriodYear inp))%num
  /\ dsrRatio (calculateDSR inp)
     = ((annualPrincipalBurden inp + annualInterestBurden inp)
        / Fin (annualIncome inp) * Fin 100)%num.
Proof.
  intros inp.
  assert (H1 : (0 < loanTermYear inp - gracePeriodYear inp)%Z) by reflexivity.
  assert (H2 : 0 < annualIncome inp) by reflexivity.
  pose proof (dsr_aggregation inp) as (Hh & _ & _ & _ & Hd).
  exact (conj H1 (conj H2 (conj (Hh eq_refl H1) (Hd H2)))).
Defined.

(** ** The stress flag and the displayed outputs *)
Lemma actualBody_withStress (b : bool) (inp : LoanInputs) (s : ActualLoop)
    (m : Z) :
  actualBody (withStress b inp) s m = actualBody inp s m.
Proof. reflexivity. Qed.

Lemma actualAfter_withStress (b : bool) (inp : LoanInputs) (k : nat) :
  actualAfter (withStress b inp) k = actualAfter inp k.
Proof.
  induction k as [|k IH]; [reflexivity|].
  rewrite !actualAfter_S, IH. apply actualBody_withStress.
Qed.

(** C3.  The stress flag does not reach the displayed outputs: whatever the
    flag, the schedule, the total interest, the total payment and the
    average monthly payment are the same. *)
Theorem stress_flag_noninterference (inp : LoanInputs) (b1 b2 : bool) :
  let r1 := calculateDSR (withStress b1 inp) in
  let r2 := calculateDSR (withStress b2 inp) in
  monthlyPayments r1 = monthlyPayments r2
  /\ totalInterest r1 = totalInterest r2
  /\ totalPayment r1 = totalPayment r2
  /\ avgMonthlyPayment r1 = avgMonthlyPayment r2.
Proof.
  cbv zeta.
  cbn [calculateDSR monthlyPayments totalInterest totalPayment
       avgMonthlyPayment].
  unfold actualLoop.
  change (totalMonths (withStress b1 inp)) with (totalMonths inp).
  change (totalMonths (withStress b2 inp)) with (totalMonths inp).
  rewrite !actualAfter_withStress. repeat split.
Qed.

(** ** The sign of the ratio *)

Section NotNegative.

Variables (x y : num) (b : Q).
Hypothesis Hx : notneg x.
Hypothesis Hy : val y b.
Hypothesis Hb : 0 <= b.

Lemma notneg_Fin (a : Q) : notneg (Fin a) <-> 0 <= a.
Proof. unfold notneg. cbn [Num.ltb]. apply Qltb_false. Qed.

Lemma notneg_mul_val : notneg (x * y).
Proof.
  destruct x as [a| | |], y as [c| | |]; num_simpl; try contradiction;
    try discriminate Hx; try reflexivity.
  - apply notneg_Fin in Hx. apply notneg_Fin. rewrite Qred_correct.
    apply Qmult_le_0_compat; [exact Hx | rewrite Hy; exact Hb].
  - unfold scale_inf. destruct (Qsign c) eqn:E; try reflexivity.
    pose proof (proj1 (Qsign_Lt c) E). lra.
Qed.

Lemma notneg_div_val : notneg (x / y).
Proof.
  destruct x as [a| | |], y as [c| | |]; num_simpl; try contradiction;
    try discriminate Hx; try reflexivity.
  - apply notneg_Fin in Hx. destruct (Qsign c) eqn:E.
    + destruct (Qsign a) eqn:Ea; try reflexivity.
      pose proof (proj1 (Qsign_Lt a) Ea). lra.
    + pose proof (proj1 (Qsign_Lt c) E). lra.
    + pose proof (proj1 (Qsign_Gt c) E). apply notneg_Fin.
      rewrite Qred_correct. apply Qle_shift_div_l; [assumption | lra].
  - destruct (Qsign c) eqn:E; try reflexivity.
    pose proof (proj1 (Qsign_Lt c) E). lra.
Qed.

End NotNegative.

Lemma notneg_add (x y : num) : notneg x -> notneg y -> notneg (x + y).
Proof.
  intros Hx Hy.
  destruct x as [a| | |], y as [c| | |]; num_simpl;
    try discriminate Hx; try discriminate Hy; try reflexivity.
  apply notneg_Fin in Hx, Hy. apply notneg_Fin. rewrite Qred_correct. lra.
Qed.

(** After the floor at zero a balance never tests negative. *)
Lemma notneg_floor (x : num) :
  notneg (if (x <? Fin 0)%num then Fin 0 else x).
Proof.
  destruct (x <? Fin 0)%num eqn:E; [reflexivity | exact E].
Qed.

Lemma val_stressMonthlyRate (inp : LoanInputs) :
  val (stressMonthlyRate inp) (rateQ (stressedInputs inp)).
Proof. rewrite stressMonthlyRate_stressed. apply val_monthlyRate. Qed.

Lemma stressAddOn_nonneg (inp : LoanInputs) : 0 <= stressAddOn inp.
Proof. unfold stressAddOn. destruct (applyStressDsr inp); lra. Qed.

Lemma stressed_rateQ_nonneg (inp : LoanInputs) :
  0 <= interestRate inp -> 0 <= rateQ (stressedInputs inp).
Proof.
  intros Hr. apply rateQ_nonneg. cbn [stressedInputs interestRate].
  rewrite Qred_correct. pose proof (stressAddOn_nonneg inp). lra.
Qed.

Lemma stress_notneg (inp : LoanInputs) (k : nat) :
  0 <= loanAmount inp -> 0 <= interestRate inp ->
  notneg (stressBalance (stressAfter inp k))
  /\ notneg (accStressInterest (stressAfter inp k)).
Proof.
  intros HP Hr. induction k as [|k [IHb IHi]].
  - split; apply notneg_Fin; [exact HP | lra].
  - rewrite stressAfter_S. cbn [stressBody stressBalance accStressInterest].
    split; [apply notneg_floor|].
    apply notneg_add; [exact IHi|].
    apply (notneg_mul_val _ _ _ IHb (val_stressMonthlyRate inp)).
    apply stressed_rateQ_nonneg, Hr.
Qed.

Lemma annualPrincipalBurden_notneg (inp : LoanInputs) :
  0 <= loanAmount inp -> (0 <= loanTermYear inp)%Z ->
  notneg (annualPrincipalBurden inp).
Proof.
  intros HP Hterm. unfold annualPrincipalBurden.
  assert (HF : notneg (Fin (loanAmount inp))) by (apply notneg_Fin, HP).
  destruct (collateralType inp).
  - destruct (Z.ltb_spec 0 (loanTermYear inp - gracePeriodYear inp));
      [| exact HF].
    apply (notneg_div_val _ _ _ HF (val_ofZ _)).
    change 0 with (inject_Z 0). rewrite <- Zle_Qle. lia.
  - apply (notneg_div_val _ _ _ HF (val_ofZ _)).
    change 0 with (inject_Z 0). rewrite <- Zle_Qle. exact Hterm.
Qed.

(** C6, as the code has it.  A non-positive income gives the ratio 0; and
    with a non-negative income, loan amount and rate, and a loan term that is
    not negative, the ratio never tests negative. *)
Theorem dsrRatio_zero_or_not_negative (inp : LoanInputs) :
  (annualIncome inp <= 0 -> dsrRatio (calculateDSR inp) = Fin 0)
  /\ (0 <= annualIncome inp -> 0 <= loanAmount inp ->
      0 <= interestRate inp -> (0 <= loanTermYear inp)%Z ->
      (dsrRatio (calculateDSR inp) <? Fin 0)%num = false).
Proof.
  cbn [calculateDSR dsrRatio]. split.
  - intros Hinc. apply Qltb_false in Hinc. rewrite Hinc. reflexivity.
  - intros Hinc HP Hr Hterm.
    destruct (Qltb 0 (annualIncome inp)) eqn:E; [| reflexivity].
    change (notneg (annualRepaymentForDsr inp / Fin (annualIncome inp)
                    * Fin 100)).
    eapply notneg_mul_val; [| apply val_Fin | lra].
    eapply notneg_div_val; [| apply val_Fin | exact Hinc].
    apply notneg_add; [apply annualPrincipalBurden_notneg; assumption|].
    unfold annualInterestBurden, totalStressInterest.
    eapply notneg_div_val; [| apply val_ofZ |].
    + apply stress_notneg; assumption.
    + change 0 with (inject_Z 0). rewrite <- Zle_Qle. exact Hterm.
Qed.

Lemma dsrRatio_zero_or_not_negative_witness :
  let inp := scenario (9 # 2) 1 0 PrincipalEqual Other true in
  (annualIncome rateClearedNoIncome <= 0
   /\ dsrRatio (calculateDSR rateClearedNoIncome) = Fin 0)
  /\ 0 <= annualIncome inp /\ 0 <= loanAmount inp /\ 0 <= interestRate inp
  /\ (0 <= loanTermYear inp)%Z
  /\ (dsrRatio (calculateDSR inp) <? Fin 0)%num = false.
Proof.
  intros inp.
  assert (H0 : annualIncome rateClearedNoIncome <= 0) by concrete.
  assert (H1 : 0 <= annualIncome inp) by concrete.
  assert (H2 : 0 <= loanAmount inp) by concrete.
  assert (H3 : 0 <= interestRate inp) by concrete.
  assert (H4 : (0 <= loanTermYear inp)%Z) by concrete.
  exact (conj
    (conj H0 (proj1 (dsrRatio_zero_or_not_negative rateClearedNoIncome) H0))
    (conj H1 (conj H2 (conj H3 (conj H4
      (proj2 (dsrRatio_zero_or_not_negative inp) H1 H2 H3 H4)))))).
Defined.

Lemma dsrRatio_negative_counterexample :
  ~ (forall inp : LoanInputs,
       0 <= annualIncome inp -> 0 <= loanAmount inp ->
       0 <= interestRate inp ->
       (dsrRatio (calculateDSR inp) <? Fin 0)%num = false).
Proof.
  intros H. specialize (H negativeTerm). vm_compute in H.
  assert (E : true = false); [| discriminate E].
  apply H; intros C; discriminate C.
Qed.

(** ** The grace period *)

(** C7, as the code has it.  Every month [m] of the grace period within the
    term has an entry that is interest-only: no principal, interest on the
    balance at the start of the month, payment equal to the interest; and
    when the loan amount is not negative the balance stays the loan amount,
    so the interest is the loan amount times the monthly rate. *)
Theorem grace_months_interest_only (inp : LoanInputs) (m : Z) :
  (1 <= m <= gracePeriodYear inp * 12)%Z ->
  (m <= loanTermYear inp * 12)%Z ->
  exists e : MonthlyPayment,
    nth_error (monthlyPayments (calculateDSR inp)) (Z.to_nat (m - 1)) = Some e
    /\ month e = m
    /\ principal e = Fin 0
    /\ interest e
       = (remainingBalance (actualAfter inp (Z.to_nat (m - 1)))
          * monthlyRate inp)%num
    /\ payment e = interest e
    /\ (0 <= loanAmount inp ->
        (interest e === Fin (loanAmount inp) * monthlyRate inp)%num = true
        /\ (balance e === Fin (loanAmount inp))%num = true).
Proof.
  intros Hm HT. set (i := Z.to_nat (m - 1)).
  assert (Hi : (i < Z.to_nat (totalMonths inp))%nat)
    by (unfold i, totalMonths; lia).
  assert (Hmi : Z.of_nat (S i) = m) by (unfold i; lia).
  exists (monthEntry inp (actualAfter inp i) (Z.of_nat (S i))).
  cbn [calculateDSR monthlyPayments]. unfold actualLoop.
  rewrite (accPayments_nth inp _ i Hi), Hmi.
  split; [reflexivity|]. split; [apply entry_month|].
  assert (Hg : (m <= graceMonths inp)%Z) by (unfold graceMonths; lia).
  assert (Hshape : principal (monthEntry inp (actualAfter inp i) m) = Fin 0
                   /\ payment (monthEntry inp (actualAfter inp i) m)
                      = interest (monthEntry inp (actualAfter inp i) m)).
  { unfold monthEntry.
    replace (m <=? graceMonths inp)%Z with true
      by (symmetry; apply Z.leb_le; exact Hg).
    split; reflexivity. }
  destruct Hshape as [Hpr Hpay].
  split; [exact Hpr|]. split; [apply entry_interest|]. split; [exact Hpay|].
  intros HP.
  destruct (grace_phase inp HP i) as (Hbal & _);
    [unfold graceMonths, i; lia|].
  destruct (entry_grace inp _ m _ Hbal Hg) as (_ & _ & Hkeep & _).
  pose proof (val_entry_interest inp _ m _ Hbal) as Hint.
  split.
  - eapply val_eqb; [exact Hint | | reflexivity].
    apply val_mul; [apply val_Fin | apply val_monthlyRate].
  - eapply val_eqb; [apply Hkeep, HP | apply val_Fin | reflexivity].
Qed.

Lemma grace_months_interest_only_witness :
  let inp := scenario (9 # 2) 2 1 PrincipalInterestEqual Housing false in
  (1 <= 12 <= gracePeriodYear inp * 12)%Z /\ (12 <= loanTermYear inp * 12)%Z
  /\ 0 <= loanAmount inp
  /\ exists e : MonthlyPayment,
       nth_error (monthlyPayments (calculateDSR inp)) (Z.to_nat (12 - 1))
       = Some e
       /\ month e = 12%Z /\ principal e = Fin 0 /\ payment e = interest e
       /\ (balance e === Fin (loanAmount inp))%num = true.
Proof.
  intros inp.
  assert (H1 : (1 <= 12 <= gracePeriodYear inp * 12)%Z) by concrete.
  assert (H2 : (12 <= loanTermYear inp * 12)%Z) by concrete.
  assert (H3 : 0 <= loanAmount inp) by concrete.
  refine (conj H1 (conj H2 (conj H3 _))).
  destruct (grace_months_interest_only inp 12 H1 H2)
    as (e & Hnth & Hm & Hpr & _ & Hpay & Hkeep).
  exists e. exact (conj Hnth (conj Hm (conj Hpr (conj Hpay
    (proj2 (Hkeep H3)))))).
Defined.

Lemma grace_balance_counterexample :
  ~ (forall (inp : LoanInputs) (m : Z) (e : MonthlyPayment),
       (1 <= m <= gracePeriodYear inp * 12)%Z ->
       nth_error (monthlyPayments (calculateDSR inp)) (Z.to_nat (m - 1))
       = Some e ->
       principal e = Fin 0
       /\ interest e
          = (remainingBalance (actualAfter inp (Z.to_nat (m - 1)))
             * monthlyRate inp)%num
       /\ payment e = interest e
       /\ (balance e === Fin (loanAmount inp))%num = true).
Proof.
  intros H.
  destruct (H negativeLoan 1%Z
              (monthEntry negativeLoan (actualAfter negativeLoan 0) 1))
    as (_ & _ & _ & Hbal).
  - vm_compute. split; intros C; discriminate C.
  - vm_compute. reflexivity.
  - vm_compute in Hbal. discriminate Hbal.
Qed.

(** ** Equal principal without a grace period *)

Section EqualPrincipal.

Variable inp : LoanInputs.

Hypothesis Hmeth : repaymentMethod inp = PrincipalEqual.
Hypothesis Hgrace : gracePeriodYear inp = 0%Z.
Hypothesis HP : 0 < loanAmount inp.
Hypothesis Hterm : (1 <= loanTermYear inp)%Z.

Let share : Q := loanAmount inp / inject_Z (totalMonths inp).

Lemma graceMonths_none : graceMonths inp = 0%Z.
Proof. unfold graceMonths. rewrite Hgrace. reflexivity. Qed.

Lemma share_pos : 0 < share.
Proof.
  unfold share. apply Qlt_shift_div_l; [| lra].
  change 0 with (inject_Z 0). rewrite <- Zlt_Qlt. unfold totalMonths. lia.
Qed.

(** The balance falls by one share a month. *)
Lemma equal_principal_balance (i : nat) :
  (Z.of_nat i <= totalMonths inp)%Z ->
  val (remainingBalance (actualAfter inp i))
      (loanAmount inp - inject_Z (Z.of_nat i) * share).
Proof.
  intros Hi. pose proof graceMonths_none as Hg.
  assert (Hn : (1 <= totalMonths inp - graceMonths inp)%Z)
    by (rewrite Hg; unfold totalMonths; lia).
  destruct (principal_phase inp (Qlt_le_weak _ _ HP) ltac:(lia) Hn i Hmeth)
    as (Hbal & _); [rewrite Hg; lia|].
  rewrite Hg in Hbal. cbn [Z.to_nat Nat.add] in Hbal.
  rewrite Z.sub_0_r in Hbal. exact Hbal.
Qed.

Lemma equal_principal_entry (i : nat) :
  (i < Z.to_nat (totalMonths inp))%nat ->
  let e := monthEntry inp (actualAfter inp i) (Z.of_nat (S i)) in
  val (principal e) share
  /\ val (interest e)
       ((loanAmount inp - inject_Z (Z.of_nat i) * share) * rateQ inp).
Proof.
  intros Hi. cbv zeta. pose proof graceMonths_none as Hg.
  pose proof (equal_principal_balance i ltac:(lia)) as Hbal.
  split; [| apply val_entry_interest; exact Hbal].
  destruct (entry_principalEqual inp _ (Z.of_nat (S i)) _ Hbal) as (Hpr & _);
    try assumption.
  - rewrite Hg. lia.
  - rewrite Hg. unfold totalMonths. lia.
  - rewrite Hg, Z.sub_0_r in Hpr. exact Hpr.
Qed.

End EqualPrincipal.

(** C9, as the code has it.  Equal principal, no grace period, a positive
    loan amount, a term of at least one year and a positive rate: every
    entry repays the constant share [loanAmount / (loanTermYear * 12)], and
    the interest strictly decreases from one month to the next. *)
Theorem equal_principal_constant_share (inp : LoanInputs) :
  repaymentMethod inp = PrincipalEqual -> gracePeriodYear inp = 0%Z ->
  0 < loanAmount inp -> (1 <= loanTermYear inp)%Z -> 0 < interestRate inp ->
  let schedule := monthlyPayments (calculateDSR inp) in
  length schedule = Z.to_nat (loanTermYear inp * 12)
  /\ (forall (i : nat) (e : MonthlyPayment),
        nth_error schedule i = Some e ->
        (principal e
         === Fin (loanAmount inp) / ofZ (loanTermYear inp * 12))%num = true)
  /\ (forall (i : nat) (e e' : MonthlyPayment),
        nth_error schedule i = Some e -> nth_error schedule (S i) = Some e' ->
        (interest e' <? interest e)%num = true).
Proof.
  intros Hmeth Hgrace HP Hterm Hrate. cbv zeta.
  split; [apply accPayments_length|]. split.
  - intros i e He. apply monthlyPayments_nth in He as [Hi ->].
    destruct (equal_principal_entry inp Hmeth Hgrace HP Hterm i Hi)
      as [Hpr _].
    eapply val_eqb; [exact Hpr | | reflexivity].
    apply val_div; [apply val_Fin | apply val_ofZ |].
    apply inject_Z_nonzero. lia.
  - intros i e e' He He'.
    apply monthlyPayments_nth in He as [Hi ->].
    apply monthlyPayments_nth in He' as [Hi' ->].
    destruct (equal_principal_entry inp Hmeth Hgrace HP Hterm i Hi)
      as [_ Hint].
    destruct (equal_principal_entry inp Hmeth Hgrace HP Hterm (S i) Hi')
      as [_ Hint'].
    rewrite (val_ltb _ _ _ _ Hint' Hint). apply Qltb_true.
    rewrite inject_Z_S.
    pose proof (share_pos inp HP Hterm) as Hs.
    pose proof (rateQ_pos inp Hrate) as Hq.
    pose proof (Qmult_lt_0_compat _ _ Hs Hq) as Hsq. lra.
Qed.

Lemma equal_principal_constant_share_witness :
  let inp := scenario (9 # 2) 1 0 PrincipalEqual Housing false in
  repaymentMethod inp = PrincipalEqual /\ gracePeriodYear inp = 0%Z
  /\ 0 < loanAmount inp /\ (1 <= loanTermYear inp)%Z /\ 0 < interestRate inp
  /\ length (monthlyPayments (calculateDSR inp))
     = Z.to_nat (loanTermYear inp * 12).
Proof.
  intros inp.
  assert (H1 : repaymentMethod inp = PrincipalEqual) by concrete.
  assert (H2 : gracePeriodYear inp = 0%Z) by concrete.
  assert (H3 : 0 < loanAmount inp) by concrete.
  assert (H4 : (1 <= loanTermYear inp)%Z) by concrete.
  assert (H5 : 0 < interestRate inp) by concrete.
  exact (conj H1 (conj H2 (conj H3 (conj H4 (conj H5
    (proj1 (equal_principal_constant_share inp H1 H2 H3 H4 H5))))))).
Defined.

(** At a zero rate every month's interest is zero. *)
Lemma interest_decrease_counterexample :
  ~ (forall inp : LoanInputs,
       repaymentMethod inp = PrincipalEqual -> gracePeriodYear inp = 0%Z ->
       0 < loanAmount inp -> (1 <= loanTermYear inp)%Z ->
       let schedule := monthlyPayments (calculateDSR inp) in
       (forall (i : nat) (e : MonthlyPayment),
          nth_error schedule i = Some e ->
          (principal e
           === Fin (loanAmount inp) / ofZ (loanTermYear inp * 12))%num = true)
       /\ (forall (i : nat) (e e' : MonthlyPayment),
             nth_error schedule i = Some e ->
             nth_error schedule (S i) = Some e' ->
             (interest e' <? interest e)%num = true)).
Proof.
  intros H.
  set (inp := scenario 0 1 0 PrincipalEqual Housing false).
  destruct (H inp) as [_ Hdec]; try concrete.
  specialize (Hdec 0%nat (monthEntry inp (actualAfter inp 0) 1)
                (monthEntry inp (actualAfter inp 1) 2)).
  assert (E : (interest (monthEntry inp (actualAfter inp 1) 2)
               <? interest (monthEntry inp (actualAfter inp 0) 1))%num = true).
  { apply Hdec; vm_compute; reflexivity. }
  vm_compute in E. discriminate E.
Qed.

(** ** Equal installments at a zero rate

    With a zero rate the annuity is [0 / 0]: the division is not guarded and
    NaN spreads through the schedule. *)

Lemma sub_NaN_r (x : num) : (x - NaN)%num = NaN.
Proof. destruct x; reflexivity. Qed.

Lemma add_NaN_r (x : num) : (x + NaN)%num = NaN.
Proof. destruct x; reflexivity. Qed.

Lemma div_zero_by_zero (x y : num) : val x 0 -> val y 0 -> (x / y)%num = NaN.
Proof.
  intros Hx Hy. destruct x as [a| | |], y as [c| | |]; num_simpl;
    try contradiction.
  replace (Qsign c) with Eq by (symmetry; apply Qsign_Eq; exact Hy).
  replace (Qsign a) with Eq by (symmetry; apply Qsign_Eq; exact Hx).
  reflexivity.
Qed.

Section ZeroRate.

Variable inp : LoanInputs.

Hypothesis Hmeth : repaymentMethod inp = PrincipalInterestEqual.
Hypothesis Hrate : interestRate inp == 0.

Lemma rateQ_zero : rateQ inp == 0.
Proof. unfold rateQ. rewrite Hrate. reflexivity. Qed.

Lemma annuity_zero_rate (n : Z) :
  (0 <= n)%Z -> annuity inp (monthlyRate inp) n = NaN.
Proof.
  intros Hn. pose proof rateQ_zero as Hq.
  pose proof (val_monthlyRate inp) as Hr.
  assert (Hpow : val (Num.pow (Fin 1 + monthlyRate inp) n) 1).
  { eapply val_compat.
    - apply val_pow; [apply val_add; [apply val_Fin | exact Hr] | exact Hn].
    - rewrite Hq. setoid_replace (1 + 0) with 1 by ring. apply Qpower_1. }
  unfold annuity. apply div_zero_by_zero.
  - eapply val_compat.
    + apply val_mul; [apply val_mul; [apply val_Fin | exact Hr] | exact Hpow].
    + rewrite Hq. ring.
  - eapply val_compat; [apply val_sub; [exact Hpow | apply val_Fin] | ring].
Qed.

(** Every amortizing month pays NaN and leaves the balance NaN. *)
Lemma entry_zero_rate (s : ActualLoop) (m : Z) :
  (graceMonths inp < m <= totalMonths inp)%Z ->
  let e := monthEntry inp s m in
  payment e = NaN /\ principal e = NaN /\ balance e = NaN.
Proof.
  intros Hm. cbv zeta. unfold monthEntry.
  replace (m <=? graceMonths inp)%Z with false
    by (symmetry; apply Z.leb_gt; lia).
  rewrite Hmeth, annuity_zero_rate by lia.
  cbn [payment principal balance Num.sub]. rewrite sub_NaN_r.
  repeat split.
Qed.

Lemma after_zero_rate (k : nat) :
  (graceMonths inp < Z.of_nat (S k) <= totalMonths inp)%Z ->
  remainingBalance (actualAfter inp (S k)) = NaN
  /\ accPayment (actualAfter inp (S k)) = NaN.
Proof.
  intros Hk. rewrite actualAfter_S.
  cbn [actualBody remainingBalance accPayment].
  destruct (entry_zero_rate (actualAfter inp k) _ Hk) as (-> & _ & ->).
  split; [reflexivity | apply add_NaN_r].
Qed.

Hypothesis Hterm : (1 <= loanTermYear inp)%Z.
Hypothesis Hgrace : (gracePeriodYear inp < loanTermYear inp)%Z.

Lemma totals_zero_rate :
  let s := actualAfter inp (Z.to_nat (totalMonths inp)) in
  accPayment s = NaN /\ accInterest s = NaN.
Proof.
  cbv zeta.
  assert (HK : exists k, Z.to_nat (totalMonths inp) = S (S k)).
  { exists (Z.to_nat (totalMonths inp) - 2)%nat. unfold totalMonths. lia. }
  destruct HK as [k HK]. rewrite HK.
  assert (Hprev : (graceMonths inp < Z.of_nat (S k) <= totalMonths inp)%Z)
    by (unfold graceMonths, totalMonths in *; lia).
  assert (Hlast : (graceMonths inp < Z.of_nat (S (S k)) <= totalMonths inp)%Z)
    by (unfold graceMonths, totalMonths in *; lia).
  split; [apply (after_zero_rate (S k) Hlast)|].
  rewrite actualAfter_S. cbn [actualBody accInterest].
  rewrite entry_interest.
  destruct (after_zero_rate k Hprev) as [-> _].
  cbn [Num.mul]. apply add_NaN_r.
Qed.

End ZeroRate.

(** C10, as the code has it.  Equal installments at a zero rate, a term of
    at least one year and a grace period shorter than the term: every entry
    after the grace period has a NaN payment, principal and balance, and the
    total and average payments are NaN; when moreover the stress flag is off
    and the income is positive, the ratio is NaN. *)
Theorem zero_rate_installment_not_finite (inp : LoanInputs) :
  repaymentMethod inp = PrincipalInterestEqual -> interestRate inp == 0 ->
  (1 <= loanTermYear inp)%Z -> (gracePeriodYear inp < loanTermYear inp)%Z ->
  let r := calculateDSR inp in
  (forall (i : nat) (e : MonthlyPayment),
     nth_error (monthlyPayments r) i = Some e ->
     (gracePeriodYear inp * 12 < month e)%Z ->
     payment e = NaN /\ principal e = NaN /\ balance e = NaN)
  /\ (exists e : MonthlyPayment,
        nth_error (monthlyPayments r) (Z.to_nat (loanTermYear inp * 12 - 1))
        = Some e /\ payment e = NaN)
  /\ totalPayment r = NaN
  /\ avgMonthlyPayment r = NaN
  /\ (applyStressDsr inp = false -> 0 < annualIncome inp ->
      dsrRatio r = NaN).
Proof.
  intros Hmeth Hrate Hterm Hgrace. cbv zeta.
  destruct (totals_zero_rate inp Hmeth Hrate Hterm Hgrace) as [Hpay _].
  assert (Hentries : forall (i : nat) (e : MonthlyPayment),
     nth_error (monthlyPayments (calculateDSR inp)) i = Some e ->
     (gracePeriodYear inp * 12 < month e)%Z ->
     payment e = NaN /\ principal e = NaN /\ balance e = NaN).
  { intros i e He Hm. apply monthlyPayments_nth in He as [Hi ->].
    rewrite entry_month in Hm.
    apply (entry_zero_rate inp Hmeth Hrate). unfold graceMonths. lia. }
  split; [exact Hentries|]. split; [| split; [| split]].
  - set (i := Z.to_nat (loanTermYear inp * 12 - 1)).
    assert (Hi : (i < Z.to_nat (totalMonths inp))%nat)
      by (unfold i, totalMonths; lia).
    exists (monthEntry inp (actualAfter inp i) (Z.of_nat (S i))).
    assert (Hnth : nth_error (monthlyPayments (calculateDSR inp)) i
                   = Some (monthEntry inp (actualAfter inp i)
                             (Z.of_nat (S i)))).
    { cbn [calculateDSR monthlyPayments]. unfold actualLoop.
      apply accPayments_nth, Hi. }
    split; [exact Hnth|]. apply (Hentries i _ Hnth).
    rewrite entry_month. unfold i. lia.
  - cbn [calculateDSR totalPayment]. exact Hpay.
  - cbn [calculateDSR avgMonthlyPayment]. unfold actualLoop.
    rewrite Hpay. reflexivity.
  - intros Hflag Hinc. apply Qltb_true in Hinc.
    cbn [calculateDSR dsrRatio]. rewrite Hinc.
    unfold annualRepaymentForDsr, annualInterestBurden.
    rewrite totalStressInterest_stressed.
    cbn [calculateDSR totalInterest]. unfold actualLoop.
    assert (Hrate' : interestRate (stressedInputs inp) == 0).
    { cbn [stressedInputs interestRate]. unfold stressAddOn.
      rewrite Hflag, Qred_correct, Hrate. reflexivity. }
    destruct (totals_zero_rate (stressedInputs inp) Hmeth Hrate' Hterm Hgrace)
      as [_ Hint].
    rewrite Hint. cbn [Num.div]. rewrite add_NaN_r. reflexivity.
Qed.

Lemma zero_rate_installment_not_finite_witness :
  let inp := scenario 0 30 0 PrincipalInterestEqual Housing false in
  repaymentMethod inp = PrincipalInterestEqual /\ interestRate inp == 0
  /\ (1 <= loanTermYear inp)%Z /\ (gracePeriodYear inp < loanTermYear inp)%Z
  /\ totalPayment (calculateDSR inp) = NaN
  /\ dsrRatio (calculateDSR inp) = NaN.
Proof.
  intros inp.
  assert (H1 : repaymentMethod inp = PrincipalInterestEqual) by concrete.
  assert (H2 : interestRate inp == 0) by concrete.
  assert (H3 : (1 <= loanTermYear inp)%Z) by concrete.
  assert (H4 : (gracePeriodYear inp < loanTermYear inp)%Z) by concrete.
  pose proof (zero_rate_installment_not_finite inp H1 H2 H3 H4)
    as (_ & _ & Hpay & _ & Hdsr).
  assert (H5 : applyStressDsr inp = false) by concrete.
  assert (H6 : 0 < annualIncome inp) by concrete.
  exact (conj H1 (conj H2 (conj H3 (conj H4 (conj Hpay (Hdsr H5 H6)))))).
Defined.

(** With no income the guard of the ratio applies, zero rate or not. *)
Lemma zero_rate_ratio_counterexample :
  ~ (forall inp : LoanInputs,
       repaymentMethod inp = PrincipalInterestEqual -> interestRate inp == 0 ->
       let r := calculateDSR inp in
       (forall e : MonthlyPayment,
          In e (monthlyPayments r) -> isFinite (payment e) = false)
       /\ isFinite (totalPayment r) = false
       /\ isFinite (dsrRatio r) = false).
Proof.
  intros H.
  destruct (H rateClearedNoIncome) as (_ & _ & Hdsr); try concrete.
  cbn [calculateDSR dsrRatio] in Hdsr. vm_compute in Hdsr. discriminate Hdsr.
Qed.

(** ** The schedule away from the zero-rate annuity

    Whenever equal installments are computed at a positive rate (and always
    for equal principal), every number of the schedule is finite. *)

(** The first three parts of [entry_finite] are in the context under fixed
    names; what is left is the balance, its case and the sign. *)
Ltac finite_entry :=
  match goal with
  | Hpr' : val (principal _) _, Hint : val (interest _) _,
    Hpay' : val (payment _) _ |- _ =>
      split; [exact Hpr' |]; split; [exact Hint |]; split; [exact Hpay' |];
      split; [| split]
  end.

Section FiniteSchedule.

Variable inp : LoanInputs.

Hypothesis Hrate : repaymentMethod inp = PrincipalInterestEqual ->
                   0 < interestRate inp.

Let P : Q := loanAmount inp.
Let q : Q := rateQ inp.

(** One month from a finite balance [b]: a finite principal portion [pr],
    the interest [b * q], their sum as payment, and the new balance
    [max 0 (b - pr)]. *)
Lemma entry_finite (s : ActualLoop) (m : Z) (b : Q) :
  (1 <= m <= totalMonths inp)%Z ->
  val (remainingBalance s) b ->
  let e := monthEntry inp s m in
  exists pr b' : Q,
    val (principal e) pr /\ val (interest e) (b * q)
    /\ val (payment e) (pr + b * q) /\ val (balance e) b'
    /\ ((b' == 0 /\ b - pr <= 0) \/ (b' == b - pr /\ 0 <= b - pr))
    /\ (0 <= P -> b <= P -> 0 <= pr).
Proof.
  intros Hm Hb. cbv zeta.
  pose proof (val_entry_interest inp s m b Hb) as Hint. fold q in Hint.
  destruct (Z.le_gt_cases m (graceMonths inp)) as [Hg|Hg].
  - destruct (entry_grace inp s m b Hb Hg) as (Hpr & Hpay & Hkeep & Hzero).
    assert (Hpay' : val (payment (monthEntry inp s m)) (0 + b * q)).
    { rewrite Hpay. eapply val_compat; [exact Hint | ring]. }
    assert (Hpr' : val (principal (monthEntry inp s m)) 0).
    { rewrite Hpr. apply val_Fin. }
    exists 0. destruct (Qlt_le_dec b 0) as [Hneg|Hpos].
    + exists 0. finite_entry.
      * apply Hzero. lra.
      * left. split; [reflexivity | lra].
      * lra.
    + exists b. finite_entry.
      * apply Hkeep, Hpos.
      * right. split; [ring | lra].
      * lra.
  - assert (Hn : (1 <= totalMonths inp - graceMonths inp)%Z) by lia.
    destruct (repaymentMethod inp) eqn:Hmeth.
    + pose proof (rateQ_pos inp (Hrate eq_refl)) as Hq.
      destruct (entry_principalInterestEqual inp s m b Hb
                  ltac:(lia) Hmeth Hq Hn) as (Hpay & Hpr' & Hkeep & Hzero).
      set (pmt := annuityQ (loanAmount inp) (rateQ inp)
                    (totalMonths inp - graceMonths inp)) in *.
      fold q in Hpr', Hkeep, Hzero.
      assert (Hpay' : val (payment (monthEntry inp s m))
                        (pmt - b * q + b * q)).
      { eapply val_compat; [exact Hpay | ring]. }
      exists (pmt - b * q).
      assert (Hsign : 0 <= P -> b <= P -> 0 <= pmt - b * q).
      { intros HP HbP.
        pose proof (annuityQ_covers P q _ Hq Hn b HP HbP) as Hc.
        change (b * q <= pmt) in Hc. lra. }
      destruct (Qlt_le_dec (b - (pmt - b * q)) 0) as [Hneg|Hpos].
      * exists 0. finite_entry.
        -- apply Hzero. lra.
        -- left. split; [reflexivity | lra].
        -- exact Hsign.
      * exists (b - (pmt - b * q)). finite_entry.
        -- apply Hkeep. lra.
        -- right. split; [reflexivity | lra].
        -- exact Hsign.
    + destruct (entry_principalEqual inp s m b Hb ltac:(lia) Hmeth
                  ltac:(lia)) as (Hpr' & Hpay' & Hkeep & Hzero).
      set (share := loanAmount inp
                    / inject_Z (totalMonths inp - graceMonths inp)) in *.
      fold q in Hpay'.
      exists share.
      assert (Hsign : 0 <= P -> b <= P -> 0 <= share).
      { intros HP _. unfold share. apply Qle_shift_div_l; [| fold P; lra].
        change 0 with (inject_Z 0). rewrite <- Zlt_Qlt. lia. }
      destruct (Qlt_le_dec (b - share) 0) as [Hneg|Hpos].
      * exists 0. finite_entry.
        -- apply Hzero. lra.
        -- left. split; [reflexivity | lra].
        -- exact Hsign.
      * exists (b - share). finite_entry.
        -- apply Hkeep. lra.
        -- right. split; [reflexivity | lra].
        -- exact Hsign.
Qed.

(** The balance is finite after every iteration, and within [0, P] when the
    loan amount is not negative. *)
Lemma balance_finite (k : nat) :
  (Z.of_nat k <= totalMonths inp)%Z ->
  exists b : Q,
    val (remainingBalance (actualAfter inp k)) b
    /\ (0 <= P -> 0 <= b <= P).
Proof.
  induction k as [|k IH]; intros Hk.
  - exists P. split; [apply val_Fin | lra].
  - destruct IH as (b & Hb & Hrange); [lia|].
    destruct (entry_finite (actualAfter inp k) (Z.of_nat (S k)) b
                ltac:(lia) Hb)
      as (pr & b' & _ & _ & _ & Hbal & Hcase & Hsign).
    exists b'. rewrite actualAfter_S. cbn [actualBody remainingBalance].
    split; [exact Hbal|]. intros HP. specialize (Hrange HP).
    specialize (Hsign HP ltac:(lra)). destruct Hcase as [[E ?]|[E ?]]; lra.
Qed.

End FiniteSchedule.

(** Every entry splits its payment into principal and interest once the
    zero-rate annuity is excluded. *)
Theorem payment_is_principal_plus_interest (inp : LoanInputs) :
  (repaymentMethod inp = PrincipalInterestEqual -> 0 < interestRate inp) ->
  forall (i : nat) (e : MonthlyPayment),
    nth_error (monthlyPayments (calculateDSR inp)) i = Some e ->
    (principal e + interest e === payment e)%num = true.
Proof.
  intros Hrate i e He. apply monthlyPayments_nth in He as [Hi ->].
  destruct (balance_finite inp Hrate i ltac:(lia)) as (b & Hb & _).
  destruct (entry_finite inp Hrate (actualAfter inp i) (Z.of_nat (S i)) b
              ltac:(lia) Hb)
    as (pr & b' & Hpr & Hint & Hpay & _).
  eapply val_eqb; [apply val_add; [exact Hpr | exact Hint] | exact Hpay |].
  reflexivity.
Qed.

(** The balance never rises and never tests below zero once the zero-rate
    annuity is excluded. *)
Theorem balance_monotone_floored (inp : LoanInputs) :
  0 <= loanAmount inp -> 0 <= interestRate inp -> (1 <= loanTermYear inp)%Z ->
  (repaymentMethod inp = PrincipalInterestEqual -> 0 < interestRate inp) ->
  let schedule := monthlyPayments (calculateDSR inp) in
  (forall (i : nat) (e : MonthlyPayment),
     nth_error schedule i = Some e -> (Fin 0 <=? balance e)%num = true)
  /\ (forall (i : nat) (e e' : MonthlyPayment),
        nth_error schedule i = Some e -> nth_error schedule (S i) = Some e' ->
        (balance e' <=? balance e)%num = true).
Proof.
  intros HP _ _ Hrate. cbv zeta.
  assert (Hentry : forall i : nat,
    (i < Z.to_nat (totalMonths inp))%nat ->
    exists b b' : Q,
      val (remainingBalance (actualAfter inp i)) b
      /\ val (balance (monthEntry inp (actualAfter inp i) (Z.of_nat (S i))))
           b'
      /\ 0 <= b' <= b).
  { intros i Hi.
    destruct (balance_finite inp Hrate i ltac:(lia)) as (b & Hb & Hrange).
    specialize (Hrange HP).
    destruct (entry_finite inp Hrate (actualAfter inp i) (Z.of_nat (S i)) b
                ltac:(lia) Hb)
      as (pr & b' & _ & _ & _ & Hbal & Hcase & Hsign).
    specialize (Hsign HP ltac:(lra)).
    exists b, b'. repeat split; try assumption;
      destruct Hcase as [[E ?]|[E ?]]; lra. }
  split.
  - intros i e He. apply monthlyPayments_nth in He as [Hi ->].
    destruct (Hentry i Hi) as (b & b' & _ & Hbal & Hrange).
    rewrite (val_leb _ _ _ _ (val_Fin 0) Hbal).
    apply Bool.negb_true_iff, Qltb_false. lra.
  - intros i e e' He He'.
    apply monthlyPayments_nth in He as [Hi ->].
    apply monthlyPayments_nth in He' as [Hi' ->].
    destruct (Hentry (S i) Hi') as (b & b' & Hb & Hbal & Hrange).
    rewrite actualAfter_S in Hb. cbn [actualBody remainingBalance] in Hb.
    rewrite (val_leb _ _ _ _ Hbal Hb).
    apply Bool.negb_true_iff, Qltb_false. lra.
Qed.

(** ** The form with the rate field cleared

    Clearing the rate field of the form sets the rate to 0 and leaves the
    other defaults: equal installments over 30 years. *)

(** C4 at the zero rate: the loan amount and the rate are not negative, the
    term is 30 years, and the balance of the first entry is NaN, which is
    not at or above zero. *)
Theorem zero_rate_balance_is_NaN :
  0 <= loanAmount rateCleared /\ 0 <= interestRate rateCleared
  /\ (1 <= loanTermYear rateCleared)%Z
  /\ exists e : MonthlyPayment,
       nth_error (monthlyPayments (calculateDSR rateCleared)) 0 = Some e
       /\ balance e = NaN /\ (Fin 0 <=? balance e)%num = false.
Proof.
  split; [concrete|]. split; [concrete|]. split; [concrete|].
  exists (monthEntry rateCleared (actualInit rateCleared) 1).
  split; [| split]; vm_compute; reflexivity.
Qed.

(** C5 at the zero rate: the first entry's principal and interest do not
    add up to its payment, both sides being NaN. *)
Theorem zero_rate_payment_identity_fails :
  exists e : MonthlyPayment,
    nth_error (monthlyPayments (calculateDSR rateCleared)) 0 = Some e
    /\ payment e = NaN
    /\ (principal e + interest e === payment e)%num = false.
Proof.
  exists (monthEntry rateCleared (actualInit rateCleared) 1).
  split; [| split]; vm_compute; reflexivity.
Qed.

(** * Further properties of the engine and of the result panel *)

(** ** The shape of the schedule *)

(** The schedule has twelve entries per year of the term (none when the
    term is not positive), numbered 1, 2, 3, ... in order. *)
Theorem schedule_length_and_months (inp : LoanInputs) :
  let schedule := monthlyPayments (calculateDSR inp) in
  length schedule = Z.to_nat (loanTermYear inp * 12)
  /\ forall (i : nat) (e : MonthlyPayment),
       nth_error schedule i = Some e -> month e = (Z.of_nat i + 1)%Z.
Proof.
  cbv zeta. split; [apply accPayments_length|].
  intros i e He. apply monthlyPayments_nth in He as [_ ->].
  rewrite entry_month. lia.
Qed.

Lemma accumulators_are_sums (inp : LoanInputs) (k : nat) :
  let s := actualAfter inp k in
  accInterest s = sumOf interest (accPayments s)
  /\ accPayment s = sumOf payment (accPayments s).
Proof.
  cbv zeta. induction k as [|k [IHi IHp]]; [split; reflexivity|].
  rewrite actualAfter_S.
  cbn [actualBody accInterest accPayment accPayments].
  rewrite !sumOf_snoc, IHi, IHp. split; reflexivity.
Qed.

(** The two totals of the result are the sums of the interest and of the
    payment columns of the schedule, added in schedule order. *)
Theorem totals_are_schedule_sums (inp : LoanInputs) :
  let r := calculateDSR inp in
  totalInterest r = sumOf interest (monthlyPayments r)
  /\ totalPayment r = sumOf payment (monthlyPayments r).
Proof. apply accumulators_are_sums. Qed.

(** Interest is charged on the outstanding balance: the first month on the
    loan amount, every later month on the balance the previous entry
    shows. *)
Theorem interest_on_outstanding_balance (inp : LoanInputs) :
  let schedule := monthlyPayments (calculateDSR inp) in
  (forall e : MonthlyPayment,
     nth_error schedule 0 = Some e ->
     interest e = (Fin (loanAmount inp) * monthlyRate inp)%num)
  /\ (forall (i : nat) (e e' : MonthlyPayment),
        nth_error schedule i = Some e -> nth_error schedule (S i) = Some e' ->
        interest e' = (balance e * monthlyRate inp)%num).
Proof.
  cbv zeta. split.
  - intros e He. apply monthlyPayments_nth in He as [_ ->].
    apply entry_interest.
  - intros i e e' He He'.
    apply monthlyPayments_nth in He as [_ ->].
    apply monthlyPayments_nth in He' as [_ ->].
    rewrite entry_interest, actualAfter_S. reflexivity.
Qed.

(** Equal installments are equal: whatever the input, any two entries after
    the grace period carry the same payment. *)
Theorem installments_are_constant (inp : LoanInputs) :
  repaymentMethod inp = PrincipalInterestEqual ->
  forall (i j : nat) (e e' : MonthlyPayment),
    nth_error (monthlyPayments (calculateDSR inp)) i = Some e ->
    nth_error (monthlyPayments (calculateDSR inp)) j = Some e' ->
    (gracePeriodYear inp * 12 < month e)%Z ->
    (gracePeriodYear inp * 12 < month e')%Z ->
    payment e = payment e'.
Proof.
  intros Hmeth i j e e' He He' Hm Hm'.
  apply monthlyPayments_nth in He as [_ ->].
  apply monthlyPayments_nth in He' as [_ ->].
  rewrite entry_month in Hm, Hm'. unfold monthEntry.
  replace (Z.of_nat (S i) <=? graceMonths inp)%Z with false
    by (symmetry; apply Z.leb_gt; exact Hm).
  replace (Z.of_nat (S j) <=? graceMonths inp)%Z with false
    by (symmetry; apply Z.leb_gt; exact Hm').
  rewrite Hmeth. reflexivity.
Qed.

Lemma installments_are_constant_witness :
  let inp := scenario (9 # 2) 2 1 PrincipalInterestEqual Housing false in
  let e := monthEntry inp (actualAfter inp 12) 13 in
  let e' := monthEntry inp (actualAfter inp 23) 24 in
  repaymentMethod inp = PrincipalInterestEqual
  /\ (gracePeriodYear inp * 12 < month e)%Z
  /\ (gracePeriodYear inp * 12 < month e')%Z
  /\ payment e = payment e'.
Proof.
  intros inp e e'.
  assert (H1 : repaymentMethod inp = PrincipalInterestEqual) by reflexivity.
  assert (H2 : (gracePeriodYear inp * 12 < month e)%Z) by reflexivity.
  assert (H3 : (gracePeriodYear inp * 12 < month e')%Z) by reflexivity.
  assert (He : nth_error (monthlyPayments (calculateDSR inp)) 12 = Some e)
    by exact (accPayments_nth inp 24 12 ltac:(lia)).
  assert (He' : nth_error (monthlyPayments (calculateDSR inp)) 23 = Some e')
    by exact (accPayments_nth inp 24 23 ltac:(lia)).
  exact (conj H1 (conj H2 (conj H3
    (installments_are_constant inp H1 12%nat 23%nat e e' He He' H2 H3)))).
Defined.

(** ** The degenerate terms *)

Lemma interest_only_totals (inp : LoanInputs) (k : nat) :
  (Z.of_nat k <= Z.max 0 (graceMonths inp))%Z ->
  accPayment (actualAfter inp k) = accInterest (actualAfter inp k).
Proof.
  induction k as [|k IH]; intros Hk; [reflexivity|].
  rewrite actualAfter_S. cbn [actualBody accPayment accInterest].
  rewrite IH by lia. f_equal. unfold monthEntry.
  replace (Z.of_nat (S k) <=? graceMonths inp)%Z with true
    by (symmetry; apply Z.leb_le; lia).
  reflexivity.
Qed.

(** A grace period that covers the whole term makes the loan interest-only:
    no entry repays principal, every payment is the month's interest, the
    balance stays the loan amount to the end, and for housing collateral
    the principal burden falls back to the whole loan amount. *)
Theorem interest_only_when_grace_covers_term (inp : LoanInputs) :
  0 <= loanAmount inp ->
  (loanTermYear inp <= gracePeriodYear inp)%Z ->
  let r := calculateDSR inp in
  (forall (i : nat) (e : MonthlyPayment),
     nth_error (monthlyPayments r) i = Some e ->
     principal e = Fin 0 /\ payment e = interest e
     /\ (balance e === Fin (loanAmount inp))%num = true)
  /\ totalPayment r = totalInterest r
  /\ (collateralType inp = Housing ->
      annualPrincipalBurden inp = Fin (loanAmount inp)).
Proof.
  intros HP Hcover. cbv zeta. split; [| split].
  - intros i e He. apply monthlyPayments_nth in He as [Hi ->].
    assert (Hm : (Z.of_nat (S i) <= graceMonths inp)%Z)
      by (unfold graceMonths, totalMonths in *; lia).
    destruct (grace_phase inp HP i ltac:(lia)) as (Hbal & _).
    destruct (entry_grace inp _ _ _ Hbal Hm) as (Hpr & Hpay & Hkeep & _).
    repeat split; try assumption.
    eapply val_eqb; [apply Hkeep, HP | apply val_Fin | reflexivity].
  - cbn [calculateDSR totalPayment totalInterest]. unfold actualLoop.
    apply interest_only_totals. unfold graceMonths, totalMonths. lia.
  - intros Hcoll. unfold annualPrincipalBurden. rewrite Hcoll.
    replace (0 <? loanTermYear inp - gracePeriodYear inp)%Z with false
      by (symmetry; apply Z.ltb_ge; lia).
    reflexivity.
Qed.

Lemma interest_only_when_grace_covers_term_witness :
  let inp := scenario (9 # 2) 1 1 PrincipalInterestEqual Housing false in
  0 <= loanAmount inp /\ (loanTermYear inp <= gracePeriodYear inp)%Z
  /\ totalPayment (calculateDSR inp) = totalInterest (calculateDSR inp)
  /\ annualPrincipalBurden inp = Fin (loanAmount inp).
Proof.
  intros inp.
  assert (H1 : 0 <= loanAmount inp) by concrete.
  assert (H2 : (loanTermYear inp <= gracePeriodYear inp)%Z) by concrete.
  pose proof (interest_only_when_grace_covers_term inp H1 H2)
    as (_ & Htot & Hburden).
  exact (conj H1 (conj H2 (conj Htot (Hburden eq_refl)))).
Defined.

(** A term of zero years or less leaves the schedule empty and the totals
    at zero; at exactly zero (the term field cleared) the average payment
    is 0/0 = NaN, and so is the ratio for a positive income, the division
    by [loanTermYear] having no guard. *)
Theorem no_schedule_without_term (inp : LoanInputs) :
  (loanTermYear inp <= 0)%Z ->
  let r := calculateDSR inp in
  monthlyPayments r = [] /\ totalInterest r = Fin 0
  /\ totalPayment r = Fin 0 /\ totalStressInterest inp = Fin 0
  /\ (loanTermYear inp = 0%Z ->
      avgMonthlyPayment r = NaN
      /\ (0 < annualIncome inp -> dsrRatio r = NaN)).
Proof.
  intros Hterm. cbv zeta.
  assert (HK : Z.to_nat (totalMonths inp) = 0%nat)
    by (unfold totalMonths; lia).
  cbn [calculateDSR monthlyPayments totalInterest totalPayment
       avgMonthlyPayment dsrRatio].
  unfold actualLoop, totalStressInterest. rewrite HK.
  repeat (split; [reflexivity|]).
  intros Hzero. unfold annualRepaymentForDsr, annualInterestBurden,
    totalStressInterest, totalMonths. rewrite Hzero.
  split; [reflexivity|].
  intros Hinc. apply Qltb_true in Hinc. rewrite Hinc.
  change (stressAfter inp (Z.to_nat (0 * 12))) with (stressAfter inp 0).
  cbn [stressAfter monthsUpTo seq map fold_left stressInit accStressInterest].
  change (Fin 0 / ofZ 0)%num with NaN.
  rewrite add_NaN_r. reflexivity.
Qed.

Lemma no_schedule_without_term_witness :
  let inp := scenario (9 # 2) 0 0 PrincipalInterestEqual Housing false in
  (loanTermYear inp <= 0)%Z /\ loanTermYear inp = 0%Z /\ 0 < annualIncome inp
  /\ monthlyPayments (calculateDSR inp) = []
  /\ avgMonthlyPayment (calculateDSR inp) = NaN
  /\ dsrRatio (calculateDSR inp) = NaN.
Proof.
  intros inp.
  assert (H1 : (loanTermYear inp <= 0)%Z) by concrete.
  assert (H2 : loanTermYear inp = 0%Z) by concrete.
  assert (H3 : 0 < annualIncome inp) by concrete.
  pose proof (no_schedule_without_term inp H1) as (Hs & _ & _ & _ & Hz).
  exact (conj H1 (conj H2 (conj H3 (conj Hs
    (conj (proj1 (Hz H2)) (proj2 (Hz H2) H3)))))).
Defined.

(** ** What each output depends on *)

Lemma actualAfter_same_loan (inp1 inp2 : LoanInputs) (k : nat) :
  loanAmount inp1 = loanAmount inp2 -> interestRate inp1 = interestRate inp2 ->
  loanTermYear inp1 = loanTermYear inp2 ->
  gracePeriodYear inp1 = gracePeriodYear inp2 ->
  repaymentMethod inp1 = repaymentMethod inp2 ->
  actualAfter inp1 k = actualAfter inp2 k.
Proof.
  destruct inp1, inp2. cbn [loanAmount interestRate loanTermYear
    gracePeriodYear repaymentMethod]. intros -> -> -> -> ->.
  induction k as [|k IH]; [reflexivity|].
  rewrite !actualAfter_S, IH. reflexivity.
Qed.

(** The displayed schedule and its totals depend on the loan alone: two
    inputs with the same amount, rate, term, grace period and repayment
    method give the same schedule, total interest, total payment and
    average payment, whatever their income, collateral and stress flag. *)
Theorem schedule_depends_on_the_loan_only (inp1 inp2 : LoanInputs) :
  loanAmount inp1 = loanAmount inp2 -> interestRate inp1 = interestRate inp2 ->
  loanTermYear inp1 = loanTermYear inp2 ->
  gracePeriodYear inp1 = gracePeriodYear inp2 ->
  repaymentMethod inp1 = repaymentMethod inp2 ->
  let r1 := calculateDSR inp1 in
  let r2 := calculateDSR inp2 in
  monthlyPayments r1 = monthlyPayments r2
  /\ totalInterest r1 = totalInterest r2
  /\ totalPayment r1 = totalPayment r2
  /\ avgMonthlyPayment r1 = avgMonthlyPayment r2.
Proof.
  intros HP Hr Ht Hg Hm. cbv zeta.
  cbn [calculateDSR monthlyPayments totalInterest totalPayment
       avgMonthlyPayment].
  unfold actualLoop, totalMonths. rewrite Ht.
  rewrite (actualAfter_same_loan inp1 inp2 _ HP Hr Ht Hg Hm).
  repeat split.
Qed.

Lemma schedule_depends_on_the_loan_only_witness :
  let inp1 := scenario (9 # 2) 1 0 PrincipalInterestEqual Housing false in
  let inp2 := {| annualIncome := 1; loanAmount := 300000000;
                 interestRate := 9 # 2; loanTermYear := 1;
                 gracePeriodYear := 0;
                 repaymentMethod := PrincipalInterestEqual;
                 collateralType := Other; applyStressDsr := true |} in
  monthlyPayments (calculateDSR inp1) = monthlyPayments (calculateDSR inp2)
  /\ totalPayment (calculateDSR inp1) = totalPayment (calculateDSR inp2).
Proof.
  intros inp1 inp2.
  pose proof (schedule_depends_on_the_loan_only inp1 inp2
                eq_refl eq_refl eq_refl eq_refl eq_refl) as (Hs & _ & Hp & _).
  exact (conj Hs Hp).
Defined.

(** ** Collateral and grace period *)

Lemma Qdiv_lt_denominator (P a b : Q) :
  0 < P -> 0 < a -> a < b -> P / b < P / a.
Proof.
  intros HP Ha Hab. unfold Qdiv. apply Qmult_lt_l; [exact HP|].
  apply (proj1 (Qinv_lt_contravar a b Ha ltac:(lra))). exact Hab.
Qed.

(** The warning under the collateral selector is accurate: when it shows
    (housing collateral, a positive grace period) and the grace period is
    shorter than the term, the principal burden of a positive loan amount is
    strictly above what it would be without the grace period; for other
    collateral, where it never shows, the grace period leaves the principal
    burden unchanged. *)
Theorem grace_warning_is_accurate (inp : LoanInputs) :
  (showsGraceWarning inp = true ->
   (gracePeriodYear inp < loanTermYear inp)%Z -> 0 < loanAmount inp ->
   (annualPrincipalBurden (withGrace 0 inp)
    <? annualPrincipalBurden inp)%num = true)
  /\ (collateralType inp = Other ->
      showsGraceWarning inp = false
      /\ annualPrincipalBurden (withGrace 0 inp) = annualPrincipalBurden inp).
Proof.
  split.
  - unfold showsGraceWarning, annualPrincipalBurden.
    cbn [withGrace collateralType loanAmount loanTermYear gracePeriodYear].
    destruct (collateralType inp); [| discriminate].
    intros Hwarn Hgrace HP. apply Z.ltb_lt in Hwarn.
    rewrite Z.sub_0_r.
    replace (0 <? loanTermYear inp)%Z with true
      by (symmetry; apply Z.ltb_lt; lia).
    replace (0 <? loanTermYear inp - gracePeriodYear inp)%Z with true
      by (symmetry; apply Z.ltb_lt; lia).
    erewrite val_ltb.
    + apply Qltb_true.
      apply (Qdiv_lt_denominator (loanAmount inp)
               (inject_Z (loanTermYear inp - gracePeriodYear inp))
               (inject_Z (loanTermYear inp))); [exact HP | |].
      * change 0 with (inject_Z 0). rewrite <- Zlt_Qlt. lia.
      * rewrite <- Zlt_Qlt. lia.
    + apply val_div; [apply val_Fin | apply val_ofZ |].
      apply inject_Z_nonzero. lia.
    + apply val_div; [apply val_Fin | apply val_ofZ |].
      apply inject_Z_nonzero. lia.
  - intros Hcoll. unfold showsGraceWarning, annualPrincipalBurden.
    cbn [withGrace collateralType loanAmount loanTermYear gracePeriodYear].
    rewrite Hcoll. split; reflexivity.
Qed.

Lemma grace_warning_is_accurate_witness :
  let inp := scenario (9 # 2) 30 5 PrincipalInterestEqual Housing false in
  showsGraceWarning inp = true
  /\ (gracePeriodYear inp < loanTermYear inp)%Z /\ 0 < loanAmount inp
  /\ (annualPrincipalBurden (withGrace 0 inp)
      <? annualPrincipalBurden inp)%num = true.
Proof.
  intros inp.
  assert (H1 : showsGraceWarning inp = true) by concrete.
  assert (H2 : (gracePeriodYear inp < loanTermYear inp)%Z) by concrete.
  assert (H3 : 0 < loanAmount inp) by concrete.
  exact (conj H1 (conj H2 (conj H3
    (proj1 (grace_warning_is_accurate inp) H1 H2 H3)))).
Defined.

(** ** The ratio card *)

(** The label and the icon of the ratio card agree on every ratio that is a
    number: the check mark shows exactly with the stable label.  On NaN
    they part: the label is the stable one, the icon is the alert. *)
Theorem status_agrees_with_icon (result : CalculationResult) :
  match dsrRatio result with
  | NaN => dsrStatus result = Stable /\ showsCheckIcon result = false
  | _ => showsCheckIcon result = true <-> dsrStatus result = Stable
  end.
Proof.
  unfold dsrStatus, showsCheckIcon.
  destruct (dsrRatio result) as [q| | |]; cbn [Num.ltb Num.leb andb negb];
    try (split; [reflexivity | reflexivity]);
    try (split; intros H; discriminate H).
  destruct (Qltb 40 q) eqn:H40; cbn [negb andb].
  - destruct (Qltb 70 q) eqn:H70; cbn [negb];
      split; intros H; discriminate H.
  - destruct (Qltb 70 q) eqn:H70; [| split; reflexivity].
    apply Qltb_false in H40. apply Qltb_true in H70. lra.
Qed.

Lemma zero_rate_dsrRatio (inp : LoanInputs) :
  repaymentMethod inp = PrincipalInterestEqual -> interestRate inp == 0 ->
  (1 <= loanTermYear inp)%Z -> (gracePeriodYear inp < loanTermYear inp)%Z ->
  applyStressDsr inp = false -> 0 < annualIncome inp ->
  dsrRatio (calculateDSR inp) = NaN.
Proof.
  intros Hmeth Hrate Hterm Hgrace Hflag Hinc. apply Qltb_true in Hinc.
  cbn [calculateDSR dsrRatio]. rewrite Hinc.
  unfold annualRepaymentForDsr, annualInterestBurden.
  rewrite totalStressInterest_stressed.
  cbn [calculateDSR totalInterest]. unfold actualLoop.
  assert (Hrate' : interestRate (stressedInputs inp) == 0).
  { cbn [stressedInputs interestRate]. unfold stressAddOn.
    rewrite Hflag, Qred_correct, Hrate. reflexivity. }
  destruct (totals_zero_rate (stressedInputs inp) Hmeth Hrate' Hterm Hgrace)
    as [_ Hint].
  rewrite Hint. cbn [Num.div]. rewrite add_NaN_r. reflexivity.
Qed.

(** The unguarded zero-rate annuity reaches the user as a reassurance: for
    equal installments at a zero rate (a term of at least one year, a grace
    period shorter than the term, the stress flag off, a positive income)
    the ratio is NaN and the card carries the stable label, next to the
    alert icon. *)
Theorem zero_rate_reads_stable (inp : LoanInputs) :
  repaymentMethod inp = PrincipalInterestEqual -> interestRate inp == 0 ->
  (1 <= loanTermYear inp)%Z -> (gracePeriodYear inp < loanTermYear inp)%Z ->
  applyStressDsr inp = false -> 0 < annualIncome inp ->
  dsrStatus (calculateDSR inp) = Stable
  /\ showsCheckIcon (calculateDSR inp) = false.
Proof.
  intros Hmeth Hrate Hterm Hgrace Hflag Hinc.
  pose proof (zero_rate_dsrRatio inp Hmeth Hrate Hterm Hgrace Hflag Hinc)
    as Hnan.
  unfold dsrStatus, showsCheckIcon. rewrite Hnan. split; reflexivity.
Qed.

Lemma zero_rate_reads_stable_witness :
  repaymentMethod rateCleared = PrincipalInterestEqual
  /\ interestRate rateCleared == 0
  /\ (1 <= loanTermYear rateCleared)%Z
  /\ (gracePeriodYear rateCleared < loanTermYear rateCleared)%Z
  /\ applyStressDsr rateCleared = false /\ 0 < annualIncome rateCleared
  /\ dsrStatus (calculateDSR rateCleared) = Stable
  /\ showsCheckIcon (calculateDSR rateCleared) = false.
Proof.
  assert (H1 : repaymentMethod rateCleared = PrincipalInterestEqual)
    by concrete.
  assert (H2 : interestRate rateCleared == 0) by concrete.
  assert (H3 : (1 <= loanTermYear rateCleared)%Z) by concrete.
  assert (H4 : (gracePeriodYear rateCleared < loanTermYear rateCleared)%Z)
    by concrete.
  assert (H5 : applyStressDsr rateCleared = false) by concrete.
  assert (H6 : 0 < annualIncome rateCleared) by concrete.
  exact (conj H1 (conj H2 (conj H3 (conj H4 (conj H5 (conj H6
    (zero_rate_reads_stable rateCleared H1 H2 H3 H4 H5 H6))))))).
Defined.

(** ** The yearly chart *)

Lemma filterIndexed_by_index {A B : Type} (f : nat -> bool) (g : A -> B)
    (g' : nat -> B) (l : list A) (s : nat) :
  (forall (i : nat) (x : A), nth_error l i = Some x -> g x = g' (s + i)%nat) ->
  map g (filterIndexed (fun _ index => f index) l s)
  = map g' (filter f (seq s (length l))).
Proof.
  revert s. induction l as [|x l IH]; intros s Hg; [reflexivity|].
  cbn [filterIndexed length seq filter].
  assert (Hx : g x = g' s).
  { rewrite (Hg 0%nat x eq_refl). f_equal. lia. }
  assert (Hrest : map g (filterIndexed (fun _ index => f index) l (S s))
                  = map g' (filter f (seq (S s) (length l)))).
  { apply IH. intros i y Hy. rewrite (Hg (S i) y Hy). f_equal. lia. }
  destruct (f s); cbn [map]; rewrite Hrest; [rewrite Hx|]; reflexivity.
Qed.

Lemma filter_map_swap (f : nat -> bool) (h : nat -> nat) (l : list nat) :
  filter f (map h l) = map h (filter (fun x => f (h x)) l).
Proof.
  induction l as [|x l IH]; [reflexivity|].
  cbn [map filter]. destruct (f (h x)); cbn [map]; rewrite IH; reflexivity.
Qed.

Lemma seq_from (a len : nat) :
  seq a len = map (fun c => (a + c)%nat) (seq 0 len).
Proof.
  revert a. induction len as [|len IH]; intros a; [reflexivity|].
  cbn [seq map]. rewrite Nat.add_0_r. f_equal.
  rewrite (IH (S a)), (IH 1%nat), map_map. apply map_ext. intros c. lia.
Qed.

Lemma filter_twelfths (T : nat) :
  filter (fun i => (i mod 12 =? 0)%nat) (seq 0 (12 * T))
  = map (fun j => (12 * j)%nat) (seq 0 T).
Proof.
  induction T as [|T IH]; [reflexivity|].
  replace (12 * S T)%nat with (12 * T + 12)%nat by lia.
  rewrite seq_app, filter_app, IH, (seq_S T 0), map_app. f_equal.
  cbn [Nat.add]. rewrite (seq_from (12 * T) 12), filter_map_swap.
  rewrite (filter_ext (fun x => ((12 * T + x) mod 12 =? 0)%nat)
             (fun x => (x mod 12 =? 0)%nat)).
  - cbn. rewrite Nat.add_0_r. reflexivity.
  - intros x. f_equal.
    rewrite Nat.add_comm, (Nat.mul_comm 12 T). apply Nat.Div0.mod_add.
Qed.

Lemma chart_indices_upto (m : nat) :
  (m mod 12 = 11)%nat ->
  filter (fun i => (i mod 12 =? 0)%nat
                   || (Z.of_nat i =? Z.of_nat (S m) - 1)%Z)
         (seq 0 (S m))
  = filter (fun i => (i mod 12 =? 0)%nat) (seq 0 (S m)) ++ [m].
Proof.
  intros Hlast. rewrite !seq_S, !filter_app. cbn [Nat.add filter].
  rewrite Hlast. cbn [Nat.eqb orb].
  replace (Z.of_nat m =? Z.of_nat (S m) - 1)%Z with true
    by (symmetry; apply Z.eqb_eq; lia).
  rewrite app_nil_r. f_equal.
  apply filter_ext_in. intros i Hi. apply in_seq in Hi.
  replace (Z.of_nat i =? Z.of_nat (S m) - 1)%Z with false
    by (symmetry; apply Z.eqb_neq; lia).
  apply Bool.orb_false_r.
Qed.

(** The indices the chart keeps out of [12 * T] months: the first month of
    each year, and the last month. *)
Lemma chart_indices (T : nat) :
  (1 <= T)%nat ->
  filter (fun i => (i mod 12 =? 0)%nat
                   || (Z.of_nat i =? Z.of_nat (12 * T) - 1)%Z)
         (seq 0 (12 * T))
  = map (fun j => (12 * j)%nat) (seq 0 T) ++ [(12 * T - 1)%nat].
Proof.
  intros HT. rewrite <- filter_twelfths.
  assert (Hlast : ((12 * T - 1) mod 12 = 11)%nat).
  { replace (12 * T - 1)%nat with (11 + (T - 1) * 12)%nat by lia.
    rewrite Nat.Div0.mod_add. reflexivity. }
  assert (E : (12 * T = S (12 * T - 1))%nat) by lia.
  pose proof (chart_indices_upto _ Hlast) as H.
  rewrite <- E in H. exact H.
Qed.

(** The yearly chart of a term of [T >= 1] years has [T + 1] bars: one per
    year, taken from the first month of the year and labelled 1 to [T], and
    one more for the last month of the term, labelled [T + 1]. *)
Theorem chart_years (inp : LoanInputs) :
  (1 <= loanTermYear inp)%Z ->
  map year (chartData (calculateDSR inp))
  = map (fun j => (Z.of_nat j + 1)%Z) (seq 0 (Z.to_nat (loanTermYear inp)))
    ++ [(loanTermYear inp + 1)%Z].
Proof.
  intros Hterm. unfold chartData. rewrite map_map. cbn [year].
  set (schedule := monthlyPayments (calculateDSR inp)).
  assert (Hlen : length schedule = (12 * Z.to_nat (loanTermYear inp))%nat).
  { unfold schedule. cbn [calculateDSR monthlyPayments]. unfold actualLoop.
    rewrite accPayments_length. unfold totalMonths. lia. }
  rewrite (filterIndexed_by_index
             (fun i => (i mod 12 =? 0)%nat
                       || (Z.of_nat i =? Z.of_nat (length schedule) - 1)%Z)
             (fun p => (month p / 12 + 1)%Z)
             (fun i => ((Z.of_nat i + 1) / 12 + 1)%Z)).
  - rewrite Hlen, chart_indices by lia.
    rewrite map_app, map_map. cbn [map]. f_equal.
    + apply map_ext. intros j.
      replace (Z.of_nat (12 * j) + 1)%Z with (1 + Z.of_nat j * 12)%Z by lia.
      rewrite Z.div_add by lia. reflexivity.
    + f_equal.
      replace (Z.of_nat (12 * Z.to_nat (loanTermYear inp) - 1) + 1)%Z
        with (0 + loanTermYear inp * 12)%Z by lia.
      rewrite Z.div_add by lia. reflexivity.
  - intros i e He. apply monthlyPayments_nth in He as [_ ->].
    rewrite entry_month. f_equal. f_equal. lia.
Qed.

Lemma chart_years_witness :
  let inp := scenario (9 # 2) 2 0 PrincipalInterestEqual Housing false in
  (1 <= loanTermYear inp)%Z
  /\ map year (chartData (calculateDSR inp)) = [1; 2; 3]%Z.
Proof.
  intros inp.
  assert (H1 : (1 <= loanTermYear inp)%Z) by concrete.
  exact (conj H1 (chart_years inp H1)).
Defined.

(** ** The input field *)

Lemma removeCommas_app (a b : String.string) :
  removeCommas (String.append a b)
  = String.append (removeCommas a) (removeCommas b).
Proof.
  induction a as [|c a IH]; [reflexivity|].
  cbn [String.append removeCommas].
  destruct (Ascii.eqb c comma); cbn [String.append]; rewrite IH; reflexivity.
Qed.

(** Whatever [parseFloat] returns, the field never reports NaN, and commas
    typed or pasted anywhere in the text change nothing: a comma between
    two pieces of text reports what the two pieces report without it, and a
    lone comma reports 0 like the empty text. *)
Theorem input_field_ignores_commas (parseFloat : String.string -> num)
    (a b : String.string) :
  (forall v : num, handleChange parseFloat a = Some v -> v <> NaN)
  /\ handleChange parseFloat
       (String.append a (String.String comma b))
     = handleChange parseFloat (String.append a b)
  /\ handleChange parseFloat (String.String comma String.EmptyString)
     = Some (Fin 0)
  /\ handleChange parseFloat String.EmptyString = Some (Fin 0).
Proof.
  split; [| split; [| split; reflexivity]].
  - unfold handleChange. intros v.
    destruct (removeCommas a); [intros [= <-]; discriminate|].
    destruct (parseFloat _); cbn [isNaN negb]; intros [= <-]; discriminate.
  - unfold handleChange. rewrite !removeCommas_app.
    cbn [removeCommas]. rewrite Ascii.eqb_refl. reflexivity.
Qed.
